(** * The raw.qemu.config override DSL of lxd/instance/drivers

    A shallow embedding of [qemuRawCfgOverride] and of the functions it is
    built from, in the two revisions the repository holds:

    - [Split]: the revision cut into [extractRawConfigKeys], [updateEntries],
      [appendEntries], [updateSections] and [appendSections];
    - [Inline]: driver_qemu_config_override.go, where the same passes are
      written inside [qemuRawCfgOverride].

    Go values are modelled as follows, for a 64-bit platform.
    - [string] is a byte string; [<] on strings is the bytewise
      lexicographic order, [String.ltb].
    - [uint] is a 64-bit word: a [Z] with the wrap-around written out; the
      largest [int] is 2^63 - 1.
    - [map[K]V] is a [gmap K V]. A [range] over a map visits the pairs in an
      order Go leaves unspecified: every [range] takes its order from the
      oracle, [visit], any function that permutes the list it is given.
    - [panic] is the result [None].
    - [sort.Slice] on a slice of at most twelve elements runs Go's
      [insertionSortLessFunc], written out here. (Releases of Go before 1.19
      first swap elements six apart on a slice of more than six; that only
      changes the order the insertion starts from, which the oracle
      already leaves open.) On a longer slice it runs pdqsort, whose result
      under a comparator that is no strict weak order is left to the
      oracle, [pdqsort], any function that permutes the slice it is given. *)

From Stdlib Require Import ZArith Ascii String List Lia Permutation Sorted.
From stdpp Require Import base option list gmap strings sorting.

Local Open Scope Z_scope.

(** ** Data model *)

(** Modelled from the spec: the struct [cfgEntry] is declared outside the
    files at hand; an entry is a (key, value) pair of strings. *)
Record cfgEntry := CfgEntry { key : string; value : string }.

(** Modelled from the spec: the struct [cfgSection] is declared outside the
    files at hand; a section has a name, an optional comment (empty when
    absent) and an ordered sequence of entries. *)
Record cfgSection := CfgSection {
  name : string;
  comment : string;
  entries : list cfgEntry
}.

Record rawConfigKey := RawConfigKey {
  sectionName : string;
  index : Z;
  entryKey : string
}.

#[global] Instance cfgEntry_eq_dec : EqDecision cfgEntry.
Proof. solve_decision. Defined.

#[global] Instance cfgSection_eq_dec : EqDecision cfgSection.
Proof. solve_decision. Defined.

#[global] Instance rawConfigKey_eq_dec : EqDecision rawConfigKey.
Proof. solve_decision. Defined.

#[global] Instance rawConfigKey_countable : Countable rawConfigKey.
Proof.
  refine (inj_countable'
            (fun k => (sectionName k, index k, entryKey k))
            (fun t => RawConfigKey t.1.1 t.1.2 t.2) _).
  by intros [].
Defined.

(** [type configMap map[rawConfigKey]string] *)
Abbreviation configMap := (gmap rawConfigKey string).

(** ** Machine integers *)

Definition uint_modulus : Z := 2 ^ 64.
Definition uint_add (a b : Z) : Z := (a + b) mod uint_modulus.
Definition uint_sub (a b : Z) : Z := (a - b) mod uint_modulus.

(** The largest [int]. *)
Definition maxInt : Z := 2 ^ 63 - 1.

(** ** What Go leaves open *)

(** The order in which a [range] visits a map, and the outcome of
    [sort.Slice] on a slice of more than twelve elements. *)
Record oracle := Oracle {
  visit : forall A : Type, list A -> list A;
  pdqsort : forall A : Type, (A -> A -> bool) -> list A -> list A
}.

(** An oracle is admissible when it only reorders. *)
Definition oracle_ok (rt : oracle) : Prop :=
  (forall (A : Type) (l : list A), visit rt A l ≡ₚ l)
  ∧ (forall (A : Type) (less : A -> A -> bool) (l : list A),
       pdqsort rt A less l ≡ₚ l).

(** ** The regular expression *)

Definition is_digit (c : ascii) : bool :=
  (48 <=? nat_of_ascii c)%nat && (nat_of_ascii c <=? 57)%nat.

Definition is_newline (c : ascii) : bool := (nat_of_ascii c =? 10)%nat.

(** [[^.\[]]: any byte, a newline too, other than '.' and '['. *)
Definition is_section_char (c : ascii) : bool :=
  negb ((nat_of_ascii c =? 46)%nat || (nat_of_ascii c =? 91)%nat).

(** The longest prefix of [s] whose bytes satisfy [p], and the rest. *)
Fixpoint span (p : ascii -> bool) (s : string) : string * string :=
  match s with
  | EmptyString => (EmptyString, EmptyString)
  | String c s' =>
      if p c then let '(a, b) := span p s' in (String c a, b)
      else (EmptyString, s)
  end.

Fixpoint strip_prefix (p s : string) : option string :=
  match p, s with
  | EmptyString, _ => Some s
  | String a p', String b s' => if Ascii.eqb a b then strip_prefix p' s' else None
  | String _ _, EmptyString => None
  end.

Fixpoint forallb_string (p : ascii -> bool) (s : string) : bool :=
  match s with
  | EmptyString => true
  | String c s' => p c && forallb_string p s'
  end.

(** [(?:\.(.+))?$] on what follows the section and the index: nothing, or a
    dot and one or more bytes none of which is a newline. *)
Definition match_entry (rest : string) : option string :=
  match rest with
  | EmptyString => Some EmptyString
  | String c e =>
      if (nat_of_ascii c =? 46)%nat then
        match e with
        | EmptyString => None
        | String _ _ =>
            if forallb_string (fun x => negb (is_newline x)) e then Some e
            else None
        end
      else None
  end.

(** The digits a bracket may hold: [\d+] in [Split], [\d] in [Inline]. *)
Inductive digits_kind := OneOrMoreDigits | OneDigit.

Definition digits_ok (kind : digits_kind) (ds : string) : bool :=
  match kind, ds with
  | _, EmptyString => false
  | OneOrMoreDigits, _ => true
  | OneDigit, String _ EmptyString => true
  | OneDigit, _ => false
  end.

(** [rawConfigPattern.FindStringSubmatch]: the three groups of
    [^raw\.qemu\.config\.([^.\[]+)(?:\[(\d+)\])?(?:\.(.+))?$] when the key
    matches ([matches[1]], [matches[2]], [matches[3]], a group that took no
    part being empty), [None] when it does not. The section group stops at
    the first '.' or '[', so the match, when there is one, is unique. *)
Definition FindStringSubmatch (kind : digits_kind) (rawKey : string)
  : option (string * string * string) :=
  match strip_prefix "raw.qemu.config." rawKey with
  | None => None
  | Some rest =>
      let '(sec, rest1) := span is_section_char rest in
      match sec with
      | EmptyString => None
      | String _ _ =>
          match rest1 with
          | String c rest2 =>
              if (nat_of_ascii c =? 91)%nat then
                let '(ds, rest3) := span is_digit rest2 in
                if digits_ok kind ds then
                  match rest3 with
                  | String d rest4 =>
                      if (nat_of_ascii d =? 93)%nat then
                        match match_entry rest4 with
                        | Some e => Some (sec, ds, e)
                        | None => None
                        end
                      else None
                  | EmptyString => None
                  end
                else None
              else
                match match_entry rest1 with
                | Some e => Some (sec, EmptyString, e)
                | None => None
                end
          | EmptyString => Some (sec, EmptyString, EmptyString)
          end
      end
  end.

(** [strconv.Atoi] on a string of decimal digits: its value, or an error
    when the value does not fit an [int]. *)
Fixpoint decimal_value (acc : Z) (ds : string) : Z :=
  match ds with
  | EmptyString => acc
  | String c ds' => decimal_value (10 * acc + (Z.of_nat (nat_of_ascii c) - 48)) ds'
  end.

Definition Atoi (ds : string) : option Z :=
  let n := decimal_value 0 ds in
  if n <=? maxInt then Some n else None.

(** ** sort.Slice *)

Section Sort.
Context {A : Type} (less : A -> A -> bool).

(** The inner loop of [insertionSortLessFunc]: [x] sits right of the
    sorted prefix, given here from its last element to its first, and is
    swapped leftwards while it is less than its left neighbour. *)
Fixpoint sift (x : A) (prefix_rev : list A) : list A :=
  match prefix_rev with
  | [] => [x]
  | y :: rest => if less x y then y :: sift x rest else x :: prefix_rev
  end.

Definition insertionSortLessFunc (data : list A) : list A :=
  rev (foldl (fun prefix_rev x => sift x prefix_rev) [] data).

Definition sort_Slice (rt : oracle) (data : list A) : list A :=
  if (length data <=? 12)%nat then insertionSortLessFunc data
  else pdqsort rt A less data.
End Sort.

(** The zero value a map read yields for a missing section. *)
Definition zeroSection : cfgSection := CfgSection EmptyString EmptyString [].

(** ** The revision split into functions *)

Module Split.
Section WithRange.
Variable rt : oracle.

Definition keyLess (a b : rawConfigKey) : bool :=
  String.ltb (sectionName a) (sectionName b)
  || (index a <? index b)
  || String.ltb (entryKey a) (entryKey b).

Definition sortedConfigKeys (cfgMap : configMap) : list rawConfigKey :=
  let rv := foldl (fun rv kv => rv ++ [kv.1]) [] (visit rt _ (map_to_list cfgMap)) in
  sort_Slice keyLess rt rv.

Definition extractRawConfigKeys (expandedConfig : gmap string string)
  : option configMap :=
  foldl (fun acc kv =>
           rv ← acc;
           let '(rawKey, value) := kv in
           match FindStringSubmatch OneOrMoreDigits rawKey with
           | None => Some rv
           | Some (m1, m2, m3) =>
               if decide (m2 = EmptyString)
               then Some (<[RawConfigKey m1 0 m3 := value]> rv)
               else
                 match Atoi m2 with
                 | Some i =>
                     if i <? 0 then None
                     else Some (<[RawConfigKey m1 i m3 := value]> rv)
                 | None => None
                 end
           end)
        (Some ∅) (visit rt _ (map_to_list expandedConfig)).

Definition updateEntries (entries : list cfgEntry) (sk : rawConfigKey)
    (cfgMap : configMap) : list cfgEntry * configMap :=
  foldl (fun st entry =>
           let '(rv, cfgMap) := st in
           let ek := RawConfigKey (sectionName sk) (index sk) (key entry) in
           match cfgMap !! ek with
           | Some val => (rv ++ [CfgEntry (key entry) val], delete ek cfgMap)
           | None => (rv ++ [CfgEntry (key entry) (value entry)], cfgMap)
           end)
        ([], cfgMap) entries.

Definition appendEntries (entries : list cfgEntry) (sk : rawConfigKey)
    (cfgMap : configMap) : list cfgEntry * configMap :=
  let sortedKeys := sortedConfigKeys cfgMap in
  foldl (fun st rawKey =>
           let '(entries, cfgMap) := st in
           if decide (sectionName rawKey ≠ sectionName sk
                      ∨ index rawKey ≠ index sk)
           then st
           else (entries ++ [CfgEntry (entryKey rawKey)
                               (default EmptyString (cfgMap !! rawKey))],
                 delete rawKey cfgMap))
        (entries, cfgMap) sortedKeys.

(** One turn of the loop of [updateSections], on the state made of
    [newCfg], [sectionCounts] and the shared [cfgMap]. *)
Definition updateSections_body
    (st : list cfgSection * gmap string Z * configMap) (section : cfgSection)
  : list cfgSection * gmap string Z * configMap :=
  let '(newCfg, sectionCounts, cfgMap) := st in
  let sectionCounts :=
    match sectionCounts !! name section with
    | Some count => <[name section := uint_add count 1]> sectionCounts
    | None => <[name section := 1]> sectionCounts
    end in
  let idx := uint_sub (default 0 (sectionCounts !! name section)) 1 in
  let sk := RawConfigKey (name section) idx EmptyString in
  if decide (cfgMap !! sk = Some EmptyString)
  then (newCfg, sectionCounts, delete sk cfgMap)
  else
    let '(es, cfgMap) := updateEntries (entries section) sk cfgMap in
    let '(es, cfgMap) := appendEntries es sk cfgMap in
    (newCfg ++ [CfgSection (name section) (comment section) es],
     sectionCounts, cfgMap).

Definition updateSections (cfg : list cfgSection) (cfgMap : configMap)
  : list cfgSection * configMap :=
  let '(newCfg, _, cfgMap) := foldl updateSections_body ([], ∅, cfgMap) cfg in
  (newCfg, cfgMap).

Definition sectionLess (a b : rawConfigKey) : bool :=
  String.ltb (sectionName a) (sectionName b) || (index a <? index b).

(** The first loop of [appendSections]: the new sections, by address. *)
Definition newSections (cfgMap : configMap) : gmap rawConfigKey cfgSection :=
  foldl (fun tmp k =>
           if decide (entryKey k = EmptyString) then tmp
           else
             let sectionKey := RawConfigKey (sectionName k) (index k) EmptyString in
             let section :=
               match tmp !! sectionKey with
               | Some section => section
               | None => CfgSection (sectionName k) EmptyString []
               end in
             <[sectionKey :=
                 CfgSection (name section) (comment section)
                   (entries section
                      ++ [CfgEntry (entryKey k)
                            (default EmptyString (cfgMap !! k))])]> tmp)
        ∅ (sortedConfigKeys cfgMap).

Definition appendSections (newCfg : list cfgSection) (cfgMap : configMap)
  : list cfgSection :=
  let tmp := newSections cfgMap in
  let rawSections :=
    foldl (fun rs kv => rs ++ [kv.1]) [] (visit rt _ (map_to_list tmp)) in
  let rawSections := sort_Slice sectionLess rt rawSections in
  foldl (fun newCfg rawSection =>
           newCfg ++ [default zeroSection (tmp !! rawSection)])
        newCfg rawSections.

Definition qemuRawCfgOverride (cfg : list cfgSection)
    (expandedConfig : gmap string string) : option (list cfgSection) :=
  cfgMap ← extractRawConfigKeys expandedConfig;
  if decide (size cfgMap = 0%nat) then Some cfg
  else
    let '(newCfg, cfgMap) := updateSections cfg cfgMap in
    Some (appendSections newCfg cfgMap).
End WithRange.
End Split.

(** ** driver_qemu_config_override.go *)

Module Inline.
Section WithRange.
Variable rt : oracle.

Definition keyLess (a b : rawConfigKey) : bool :=
  String.ltb (sectionName a) (sectionName b)
  || String.ltb (entryKey a) (entryKey b)
  || (index a <? index b).

Definition sortedConfigKeys (cfgMap : configMap) : list rawConfigKey :=
  let rv := foldl (fun rv kv => rv ++ [kv.1]) [] (visit rt _ (map_to_list cfgMap)) in
  sort_Slice keyLess rt rv.

Definition qemuExtractRawConfigKeys (expandedConfig : gmap string string)
  : option configMap :=
  foldl (fun acc kv =>
           rv ← acc;
           let '(rawKey, value) := kv in
           match FindStringSubmatch OneDigit rawKey with
           | None => Some rv
           | Some (m1, m2, m3) =>
               if decide (m2 = EmptyString)
               then Some (<[RawConfigKey m1 0 m3 := value]> rv)
               else
                 match Atoi m2 with
                 | Some i =>
                     if (9 <? i) || (i <? 0) then None
                     else Some (<[RawConfigKey m1 i m3 := value]> rv)
                 | None => None
                 end
           end)
        (Some ∅) (visit rt _ (map_to_list expandedConfig)).

(** One turn of the loop over [cfg], on the state made of [newCfg],
    [sectionNameCountMap] and [tmp]. *)
Definition merge_body
    (st : list cfgSection * gmap string Z * configMap) (section : cfgSection)
  : list cfgSection * gmap string Z * configMap :=
  let '(newCfg, sectionNameCountMap, tmp) := st in
  let sectionNameCountMap :=
    match sectionNameCountMap !! name section with
    | Some count => <[name section := uint_add count 1]> sectionNameCountMap
    | None => <[name section := 1]> sectionNameCountMap
    end in
  let idx := uint_sub (default 0 (sectionNameCountMap !! name section)) 1 in
  let sk := RawConfigKey (name section) idx EmptyString in
  if decide (tmp !! sk = Some EmptyString)
  then (newCfg, sectionNameCountMap, delete sk tmp)
  else
    let '(es, tmp) :=
      foldl (fun st entry =>
               let '(es, tmp) := st in
               let ek := RawConfigKey (name section) idx (key entry) in
               match tmp !! ek with
               | Some val => (es ++ [CfgEntry (key entry) val], delete ek tmp)
               | None => (es ++ [CfgEntry (key entry) (value entry)], tmp)
               end)
            ([], tmp) (entries section) in
    let '(es, tmp) :=
      foldl (fun st kv =>
               let '(es, tmp) := st in
               let '(rawKey, rawValue) := kv in
               if decide (sectionName rawKey ≠ sectionName sk
                          ∨ index rawKey ≠ index sk)
               then st
               else (es ++ [CfgEntry (entryKey rawKey) rawValue],
                     delete rawKey tmp))
            (es, tmp) (visit rt _ (map_to_list tmp)) in
    (newCfg ++ [CfgSection (name section) (comment section) es],
     sectionNameCountMap, tmp).

Definition sectionLess (a b : rawConfigKey) : bool :=
  String.ltb (sectionName a) (sectionName b) || (index a <? index b).

(** The loop over [sortedKeys]: the new sections, by address. *)
Definition newSections (tmp : configMap) : gmap rawConfigKey cfgSection :=
  foldl (fun sectionMap k =>
           if decide (entryKey k = EmptyString) then sectionMap
           else
             let sectionKey := RawConfigKey (sectionName k) (index k) EmptyString in
             let section :=
               match sectionMap !! sectionKey with
               | Some section => section
               | None => CfgSection (sectionName k) EmptyString []
               end in
             <[sectionKey :=
                 CfgSection (name section) (comment section)
                   (entries section
                      ++ [CfgEntry (entryKey k)
                            (default EmptyString (tmp !! k))])]> sectionMap)
        ∅ (sortedConfigKeys tmp).

Definition qemuRawCfgOverride (cfg : list cfgSection)
    (expandedConfig : gmap string string) : option (list cfgSection) :=
  tmp ← qemuExtractRawConfigKeys expandedConfig;
  if decide (size tmp = 0%nat) then Some cfg
  else
    let '(newCfg, _, tmp) := foldl merge_body ([], ∅, tmp) cfg in
    let sectionMap := newSections tmp in
    let rawSections :=
      foldl (fun rs kv => rs ++ [kv.1]) [] (visit rt _ (map_to_list sectionMap)) in
    let rawSections := sort_Slice sectionLess rt rawSections in
    Some (foldl (fun newCfg rawSection =>
                   newCfg ++ [default zeroSection (sectionMap !! rawSection)])
                newCfg rawSections).
End WithRange.
End Inline.

(** Two oracles: a [range] that visits a map in the order of its
    [map_to_list], and one that visits it backwards. *)
Definition forwards : oracle :=
  {| visit := fun _ l => l; pdqsort := fun _ _ l => l |}.
Definition backwards : oracle :=
  {| visit := fun _ l => rev l; pdqsort := fun _ _ l => l |}.

(** ** The two revisions side by side *)

Inductive revision := SplitRev | InlineRev.

Definition extractKeys (r : revision) (rt : oracle)
    (expandedConfig : gmap string string) : option configMap :=
  match r with
  | SplitRev => Split.extractRawConfigKeys rt expandedConfig
  | InlineRev => Inline.qemuExtractRawConfigKeys rt expandedConfig
  end.

(** The merge pass: the loop over the original sections, from the empty
    list, no section counted and the extracted map. *)
Definition mergePass (r : revision) (rt : oracle)
    (cfg : list cfgSection) (cfgMap : configMap) : list cfgSection * configMap :=
  match r with
  | SplitRev => Split.updateSections rt cfg cfgMap
  | InlineRev =>
      let '(newCfg, _, tmp) := foldl (Inline.merge_body rt) ([], ∅, cfgMap) cfg in
      (newCfg, tmp)
  end.

Definition override (r : revision) (rt : oracle)
    (cfg : list cfgSection) (expandedConfig : gmap string string)
  : option (list cfgSection) :=
  match r with
  | SplitRev => Split.qemuRawCfgOverride rt cfg expandedConfig
  | InlineRev => Inline.qemuRawCfgOverride rt cfg expandedConfig
  end.

(** The bracket grammar of each revision. *)
Definition digitsOf (r : revision) : digits_kind :=
  match r with SplitRev => OneOrMoreDigits | InlineRev => OneDigit end.

(** ** Vocabulary of the statements *)

(** The number of sections named [n] among [seen]: the repeat index of the
    next section of that name. *)
Definition occurrence (seen : list cfgSection) (n : string) : Z :=
  Z.of_nat (length (filter (fun s => name s = n) seen)).

(** Every section of [cfg] with its repeat index, [seen] being the sections
    left of [cfg] in the original list. *)
Fixpoint occurrences_from (seen cfg : list cfgSection) : list (Z * cfgSection) :=
  match cfg with
  | [] => []
  | s :: rest => (occurrence seen (name s), s) :: occurrences_from (seen ++ [s]) rest
  end.

Definition sectionAddress (s : cfgSection) (j : Z) : rawConfigKey :=
  RawConfigKey (name s) j EmptyString.

(** [k] addresses the section occurrence [sk], or an entry of it. *)
Definition same_section (sk k : rawConfigKey) : Prop :=
  sectionName k = sectionName sk ∧ index k = index sk.

#[global] Instance same_section_dec sk k : Decision (same_section sk k).
Proof. unfold same_section. apply _. Defined.

(** The occurrences the map does not delete. *)
Definition kept (m : configMap) (l : list (Z * cfgSection)) : list (Z * cfgSection) :=
  filter (fun js => m !! sectionAddress js.2 js.1 ≠ Some EmptyString) l.

Definition entryAddress (sk : rawConfigKey) (e : cfgEntry) : rawConfigKey :=
  RawConfigKey (sectionName sk) (index sk) (key e).

Definition entryOf (kv : rawConfigKey * string) : cfgEntry :=
  CfgEntry (entryKey kv.1) kv.2.

(** The entries of the addresses of [sk] that the original entries [es] of
    the occurrence leave in the map, in the order of [map_to_list]. *)
Definition leftover (m : configMap) (sk : rawConfigKey) (es : list cfgEntry)
  : list cfgEntry :=
  entryOf <$> map_to_list (filter (fun kv => same_section sk kv.1)
                             (Split.updateEntries es sk m).2).

(** [o] is occurrence [js.1] of section [js.2] merged with the map [m]: the
    same name and comment, the original entries in their positions with the
    overridden values, then the left-over entries of that occurrence in
    some order. The loop over the original entries is [updateEntries] in
    the split revision and the same loop, written in place, in the other. *)
Definition merged (m : configMap) (js : Z * cfgSection) (o : cfgSection) : Prop :=
  name o = name js.2 ∧ comment o = comment js.2 ∧
  ∃ news, entries o = (Split.updateEntries (entries js.2) (sectionAddress js.2 js.1) m).1 ++ news
          ∧ news ≡ₚ leftover m (sectionAddress js.2 js.1) (entries js.2).

(** The address [k] is spent by the merge pass over [seen]: its occurrence
    was visited, and either was not deleted or [k] is the deletion itself. *)
Definition consumed (seen : list cfgSection) (m : configMap) (k : rawConfigKey) : Prop :=
  (0 <= index k < occurrence seen (sectionName k)) ∧
  (m !! RawConfigKey (sectionName k) (index k) EmptyString = Some EmptyString
   → entryKey k = EmptyString).

#[global] Instance consumed_dec seen m k : Decision (consumed seen m k).
Proof. unfold consumed. apply _. Defined.

(** The addresses that make up the new section [key]. *)
Definition feeds (key k : rawConfigKey) : Prop :=
  entryKey k ≠ EmptyString ∧ same_section key k.

#[global] Instance feeds_dec key k : Decision (feeds key k).
Proof. unfold feeds. apply _. Defined.

Definition entryAt (m : configMap) (k : rawConfigKey) : cfgEntry :=
  CfgEntry (entryKey k) (default EmptyString (m !! k)).

(** [a] may stand left of [b]: [b] is not strictly below [a]. *)
Definition settled {A} (R : relation A) (a b : A) : Prop := R b a → R a b.


(** [x] is below [y] for the comparator of [Split.sortedConfigKeys]. *)
Definition keyBelow (x y : rawConfigKey) : Prop :=
  String.le (sectionName x) (sectionName y) ∧ index x <= index y
  ∧ String.le (entryKey x) (entryKey y).

(** ** Devices of the proofs *)

(** The loop body both revisions share, up to how the left-over entries of
    the occurrence are appended. *)
Definition merge_body_with
    (appendNew : list cfgEntry → rawConfigKey → configMap → list cfgEntry * configMap)
    (st : list cfgSection * gmap string Z * configMap) (section : cfgSection)
  : list cfgSection * gmap string Z * configMap :=
  let '(newCfg, sectionCounts, cfgMap) := st in
  let sectionCounts :=
    match sectionCounts !! name section with
    | Some count => <[name section := uint_add count 1]> sectionCounts
    | None => <[name section := 1]> sectionCounts
    end in
  let idx := uint_sub (default 0 (sectionCounts !! name section)) 1 in
  let sk := RawConfigKey (name section) idx EmptyString in
  if decide (cfgMap !! sk = Some EmptyString)
  then (newCfg, sectionCounts, delete sk cfgMap)
  else
    let '(es, cfgMap) := Split.updateEntries (entries section) sk cfgMap in
    let '(es, cfgMap) := appendNew es sk cfgMap in
    (newCfg ++ [CfgSection (name section) (comment section) es],
     sectionCounts, cfgMap).

(** The loop of [Inline.merge_body] that appends the left-over entries. *)
Definition inline_appendNew (rt : oracle)
    (es : list cfgEntry) (sk : rawConfigKey) (tmp : configMap)
  : list cfgEntry * configMap :=
  foldl (fun st kv =>
           let '(es, tmp) := st in
           let '(rawKey, rawValue) := kv in
           if decide (sectionName rawKey ≠ sectionName sk ∨ index rawKey ≠ index sk)
           then st
           else (es ++ [CfgEntry (entryKey rawKey) rawValue], delete rawKey tmp))
        (es, tmp) (visit rt _ (map_to_list tmp)).

(** What the merge pass needs of the loop that appends the left-over
    entries: it empties the occurrence's addresses out of the map, touches
    no other address, and appends one entry per address it found. *)
Definition appendNew_spec
    (appendNew : list cfgEntry → rawConfigKey → configMap → list cfgEntry * configMap)
  : Prop :=
  ∀ es sk m,
    (∀ k, (appendNew es sk m).2 !! k
          = if decide (same_section sk k) then None else m !! k)
    ∧ ∃ news, (appendNew es sk m).1 = es ++ news
              ∧ news ≡ₚ entryOf <$> map_to_list
                                      (filter (fun kv => same_section sk kv.1) m).

(** The state of the loop once the sections [seen] are visited, from the
    map [m]: every name met is counted, the spent addresses and no others
    have left the map, and the output holds the kept occurrences merged
    with [m], in their order. *)
Record merge_inv (m : configMap) (seen : list cfgSection)
    (st : list cfgSection * gmap string Z * configMap) : Prop := {
  inv_counts : ∀ n, st.1.2 !! n
                    = if decide (occurrence seen n = 0) then None
                      else Some (occurrence seen n);
  inv_map : ∀ k, st.2 !! k = if decide (consumed seen m k) then None else m !! k;
  inv_out : Forall2 (merged m) (kept m (occurrences_from [] seen)) st.1.1
}.

Definition newSectionsOf (r : revision) (rt : oracle)
    (m : configMap) : gmap rawConfigKey cfgSection :=
  match r with
  | SplitRev => Split.newSections rt m
  | InlineRev => Inline.newSections rt m
  end.

(** The sections the append pass adds to the merged list, in order. The
    comparator of this sort is the same in the two revisions. *)
Definition appended (r : revision) (rt : oracle)
    (m : configMap) : list cfgSection :=
  let tmp := newSectionsOf r rt m in
  (fun rawSection => default zeroSection (tmp !! rawSection))
    <$> sort_Slice Split.sectionLess rt (visit rt _ (map_to_list tmp)).*1.

(** The first loop of the append pass, over any list of addresses. *)
Definition newSections_over (m : configMap) (L : list rawConfigKey)
  : gmap rawConfigKey cfgSection :=
  foldl (fun tmp k =>
           if decide (entryKey k = EmptyString) then tmp
           else
             let sectionKey := RawConfigKey (sectionName k) (index k) EmptyString in
             let section :=
               match tmp !! sectionKey with
               | Some section => section
               | None => CfgSection (sectionName k) EmptyString []
               end in
             <[sectionKey :=
                 CfgSection (name section) (comment section)
                   (entries section
                      ++ [CfgEntry (entryKey k)
                            (default EmptyString (m !! k))])]> tmp)
        ∅ L.

(** ** Vocabulary of the further properties *)

(** The text of a key: the prefix, the section, the digits in brackets
    when there are some, the entry after a dot when there is one. *)
Definition keyText (sec ds e : string) : string :=
  "raw.qemu.config." +:+ sec
  +:+ (match ds with EmptyString => EmptyString | String _ _ => "[" +:+ ds +:+ "]" end)
  +:+ (match e with EmptyString => EmptyString | String _ _ => "." +:+ e end).

(** What the pattern asks of its three groups. *)
Definition groups_ok (kind : digits_kind) (sec ds e : string) : Prop :=
  sec ≠ EmptyString ∧ forallb_string is_section_char sec = true
  ∧ forallb_string is_digit ds = true
  ∧ (kind = OneDigit → (String.length ds <= 1)%nat)
  ∧ forallb_string (fun x => negb (is_newline x)) e = true.

(** The address a matching key is normalized to. *)
Definition addressOf (groups : string * string * string) : rawConfigKey :=
  RawConfigKey groups.1.1 (decimal_value 0 groups.1.2) groups.2.

(** The extraction loop with the bracket grammar and the largest index
    as parameters; both revisions are instances of it. *)
Definition extract_from (kind : digits_kind) (limit : Z)
    (acc : option configMap) (l : list (string * string)) : option configMap :=
  foldl (fun acc kv =>
           rv ← acc;
           match FindStringSubmatch kind kv.1 with
           | None => Some rv
           | Some g =>
               if decimal_value 0 g.1.2 <=? limit
               then Some (<[addressOf g := kv.2]> rv)
               else None
           end)
        acc l.

(** The largest index a revision lets through. *)
Definition indexLimit (r : revision) : Z :=
  match r with SplitRev => maxInt | InlineRev => 9 end.

(** The sort sees its comparator through the results of the comparisons
    only: two comparators that agree on every pair sort alike. *)
Definition oracle_extensional (rt : oracle) : Prop :=
  ∀ A (less1 less2 : A → A → bool) (l : list A),
    (∀ a b, less1 a b = less2 a b) →
    pdqsort rt A less1 l = pdqsort rt A less2 l.

(** [sortedConfigKeys] of a revision. *)
Definition sortedKeysOf (r : revision) (rt : oracle) (m : configMap)
  : list rawConfigKey :=
  match r with
  | SplitRev => Split.sortedConfigKeys rt m
  | InlineRev => Inline.sortedConfigKeys rt m
  end.


(** The map addresses no section of [cfg]. *)
Definition addresses_none (cfg : list cfgSection) (m : configMap) : Prop :=
  ∀ k, is_Some (m !! k) → ¬ (0 <= index k < occurrence cfg (sectionName k)).

(** * Properties *)

(** ** Lists and the sort *)

Lemma foldl_snoc_fmap {A B} (f : A → B) (l : list A) (acc : list B) :
  foldl (fun rv x => rv ++ [f x]) acc l = acc ++ (f <$> l).
Proof.
  revert acc. induction l as [|x l IH]; intros acc; simpl.
  - by rewrite app_nil_r.
  - rewrite IH. by rewrite <- app_assoc.
Qed.

Lemma sift_perm {A} (less : A → A → bool) x prefix_rev :
  sift less x prefix_rev ≡ₚ x :: prefix_rev.
Proof.
  induction prefix_rev as [|y rest IH]; simpl; [done|].
  destruct (less x y); [|done].
  rewrite IH. apply perm_swap.
Qed.

Lemma insertionSortLessFunc_perm {A} (less : A → A → bool) (data : list A) :
  insertionSortLessFunc less data ≡ₚ data.
Proof.
  unfold insertionSortLessFunc. rewrite <- Permutation_rev.
  assert (H : ∀ acc, foldl (fun p x => sift less x p) acc data ≡ₚ data ++ acc).
  { induction data as [|x l IH]; intros acc; simpl; [done|].
    rewrite IH, sift_perm. by rewrite Permutation_middle. }
  rewrite H. by rewrite app_nil_r.
Qed.

Lemma visit_perm rt : oracle_ok rt → ∀ A (l : list A), visit rt A l ≡ₚ l.
Proof. by intros [? ?]. Qed.

Lemma sort_Slice_perm {A} rt (less : A → A → bool) (data : list A) :
  oracle_ok rt → sort_Slice less rt data ≡ₚ data.
Proof.
  intros [_ Hp]. unfold sort_Slice.
  destruct (length data <=? 12)%nat; [apply insertionSortLessFunc_perm|apply Hp].
Qed.

Lemma forwards_ok : oracle_ok forwards.
Proof. split; intros; reflexivity. Qed.

Lemma backwards_ok : oracle_ok backwards.
Proof.
  split; intros; simpl; [|reflexivity]. symmetry. apply Permutation_rev.
Qed.

Lemma eta_entry (e : cfgEntry) : CfgEntry (key e) (value e) = e.
Proof. by destruct e. Qed.

Lemma eta_section (s : cfgSection) :
  CfgSection (name s) (comment s) (entries s) = s.
Proof. by destruct s. Qed.

Lemma filter_all {A} (P : A → Prop) `{∀ x, Decision (P x)} (l : list A) :
  (∀ x, x ∈ l → P x) → filter P l = l.
Proof.
  induction l as [|x l IH]; intros Hl; [done|].
  rewrite filter_cons_True by (apply Hl; by left).
  f_equal. apply IH. intros y Hy. apply Hl. by right.
Qed.



Lemma StronglySorted_filter {A} (Q : relation A) (P : A → Prop)
    `{∀ x, Decision (P x)} l :
  StronglySorted Q l → StronglySorted Q (filter P l).
Proof.
  induction l as [|x l IH]; intros Hs; [constructor|].
  apply StronglySorted_cons in Hs as [Hx Hl].
  destruct (decide (P x)).
  - rewrite filter_cons_True by done. apply StronglySorted_cons.
    split; [|by apply IH].
    rewrite Forall_forall in Hx |- *. intros y Hy. apply Hx.
    by apply list_elem_of_filter in Hy as [_ ?].
  - rewrite filter_cons_False by done. by apply IH.
Qed.

Lemma StronglySorted_and {A} (Q1 Q2 : relation A) l :
  StronglySorted Q1 l → StronglySorted Q2 l →
  StronglySorted (fun a b => Q1 a b ∧ Q2 a b) l.
Proof.
  induction l as [|x l IH]; intros H1 H2; [constructor|].
  apply StronglySorted_cons in H1 as [Hx1 Hl1].
  apply StronglySorted_cons in H2 as [Hx2 Hl2].
  apply StronglySorted_cons. split; [|by apply IH].
  rewrite Forall_forall in Hx1, Hx2 |- *. intros y Hy. split; auto.
Qed.

Lemma StronglySorted_Forall {A} (P : A → Prop) l :
  Forall P l → StronglySorted (fun a b => P a ∧ P b) l.
Proof.
  induction 1 as [|x l Hx Hl IH]; [constructor|].
  apply StronglySorted_cons. split; [|done].
  apply (Forall_impl _ _ _ Hl). by intros y Hy.
Qed.

Lemma NoDup_StronglySorted {A} (l : list A) :
  NoDup l → StronglySorted (fun a b => a ≠ b) l.
Proof.
  induction 1 as [|x l Hx Hl IH]; [constructor|].
  apply StronglySorted_cons. split; [|done].
  apply Forall_forall. intros y Hy ->. done.
Qed.

(** ** What the insertion sort keeps of a comparator that is not an order *)

Section Dominance.
Context {A : Type} (less : A → A → bool) (R : relation A).
Hypothesis R_trans : ∀ x y z, R x y → R y z → R x z.
Hypothesis less_spec : ∀ x y, less x y = false ↔ R y x.

Lemma sift_settled x prefix_rev :
  StronglySorted (flip (settled R)) prefix_rev →
  StronglySorted (flip (settled R)) (sift less x prefix_rev).
Proof.
  induction prefix_rev as [|y rest IH]; intros Hs; simpl.
  - repeat constructor.
  - apply StronglySorted_cons in Hs as [Hy Hrest].
    destruct (less x y) eqn:Hl.
    + apply StronglySorted_cons. split; [|by apply IH].
      rewrite sift_perm. constructor; [|done].
      intros Hyx. apply less_spec in Hyx. congruence.
    + apply less_spec in Hl. apply StronglySorted_cons. split.
      * constructor; [by intros _|].
        rewrite Forall_forall in Hy |- *. intros z Hz Hxz.
        apply (R_trans z y x); [|done]. apply (Hy z Hz). by apply (R_trans y x z).
      * by apply StronglySorted_cons.
Qed.

Lemma StronglySorted_rev (Q : relation A) l :
  StronglySorted (flip Q) l → StronglySorted Q (rev l).
Proof.
  induction l as [|x l IH]; intros Hs; simpl; [constructor|].
  apply StronglySorted_cons in Hs as [Hx Hl].
  apply StronglySorted_app. split; [|split; [by apply IH|repeat constructor]].
  intros x1 x2 Hx1 Hx2. apply list_elem_of_singleton in Hx2 as ->.
  rewrite Forall_forall in Hx. apply Hx.
  apply list_elem_of_In. apply in_rev. by apply list_elem_of_In.
Qed.

(** Whatever the order of [data], the insertion sort never leaves an
    element left of one strictly below it. *)
Lemma insertionSortLessFunc_settled data :
  StronglySorted (settled R) (insertionSortLessFunc less data).
Proof.
  unfold insertionSortLessFunc. apply StronglySorted_rev.
  assert (H : ∀ acc, StronglySorted (flip (settled R)) acc →
                     StronglySorted (flip (settled R))
                       (foldl (fun p x => sift less x p) acc data)).
  { induction data as [|x l IH]; intros acc Hacc; simpl; [done|].
    apply IH. by apply sift_settled. }
  apply H. constructor.
Qed.

Lemma sort_Slice_settled rt data :
  (length data <= 12)%nat →
  StronglySorted (settled R) (sort_Slice less rt data).
Proof.
  intros Hlen. unfold sort_Slice.
  apply Nat.leb_le in Hlen. rewrite Hlen. apply insertionSortLessFunc_settled.
Qed.
End Dominance.

(** ** The comparators *)

Lemma ltb_false_le (a b : string) : String.ltb a b = false ↔ String.le b a.
Proof.
  unfold String.le, String.ltb, String.leb.
  rewrite (String.compare_antisym b a).
  destruct (String.compare a b); simpl; split; intros H; try done.
Qed.



Lemma split_keyLess_spec x y : Split.keyLess x y = false ↔ keyBelow y x.
Proof.
  unfold Split.keyLess, keyBelow.
  rewrite !orb_false_iff, !ltb_false_le, Z.ltb_ge. tauto.
Qed.

Lemma keyBelow_trans x y z : keyBelow x y → keyBelow y z → keyBelow x z.
Proof.
  unfold keyBelow. intros (H1 & H2 & H3) (H4 & H5 & H6).
  split; [by transitivity (sectionName y)|]. split; [lia|].
  by transitivity (entryKey y).
Qed.

(** ** Ranging over a map *)

Section Range.
Context (rt : oracle).
Hypothesis rt_ok : oracle_ok rt.

Lemma visit_keys_perm {V} (m : gmap rawConfigKey V) :
  (visit rt _ (map_to_list m)).*1 ≡ₚ (map_to_list m).*1.
Proof. by rewrite (visit_perm rt rt_ok _ (map_to_list m)). Qed.

Lemma visit_keys_NoDup {V} (m : gmap rawConfigKey V) :
  NoDup (visit rt _ (map_to_list m)).*1.
Proof. rewrite visit_keys_perm. apply NoDup_fst_map_to_list. Qed.

Lemma visit_elem_of {K V} `{Countable K} (m : gmap K V) k v :
  (k, v) ∈ visit rt _ (map_to_list m) ↔ m !! k = Some v.
Proof. rewrite (visit_perm rt rt_ok _ (map_to_list m)). apply elem_of_map_to_list. Qed.

Lemma split_sortedConfigKeys_perm m :
  Split.sortedConfigKeys rt m ≡ₚ (map_to_list m).*1.
Proof.
  unfold Split.sortedConfigKeys. rewrite sort_Slice_perm, foldl_snoc_fmap by done.
  simpl. apply visit_keys_perm.
Qed.

Lemma inline_sortedConfigKeys_perm m :
  Inline.sortedConfigKeys rt m ≡ₚ (map_to_list m).*1.
Proof.
  unfold Inline.sortedConfigKeys. rewrite sort_Slice_perm, foldl_snoc_fmap by done.
  simpl. apply visit_keys_perm.
Qed.
End Range.

Lemma elem_of_keys_map_to_list {V} (m : gmap rawConfigKey V) k :
  k ∈ (map_to_list m).*1 ↔ is_Some (m !! k).
Proof.
  rewrite list_elem_of_fmap. split.
  - intros [[k' v] [-> Hin]]. apply elem_of_map_to_list in Hin. by exists v.
  - intros [v Hv]. exists (k, v). split; [done|]. by apply elem_of_map_to_list.
Qed.

(** ** updateEntries *)

Lemma same_section_entryAddress sk e : same_section sk (entryAddress sk e).
Proof. by split. Qed.

Lemma same_section_eq sk k :
  same_section sk k → k = RawConfigKey (sectionName sk) (index sk) (entryKey k).
Proof. destruct k; intros [? ?]; simpl in *; by subst. Qed.

Lemma updateEntries_acc es sk m rv :
  foldl (fun st entry =>
           let '(rv, cfgMap) := st in
           let ek := RawConfigKey (sectionName sk) (index sk) (key entry) in
           match cfgMap !! ek with
           | Some val => (rv ++ [CfgEntry (key entry) val], delete ek cfgMap)
           | None => (rv ++ [CfgEntry (key entry) (value entry)], cfgMap)
           end) (rv, m) es
  = (rv ++ (Split.updateEntries es sk m).1, (Split.updateEntries es sk m).2).
Proof.
  unfold Split.updateEntries.
  revert rv m. induction es as [|e es IH]; intros rv m; simpl.
  - by rewrite app_nil_r.
  - destruct (m !! _) as [val|]; rewrite IH; symmetry; rewrite IH; simpl;
      by rewrite <- app_assoc.
Qed.

Lemma updateEntries_nil sk m : Split.updateEntries [] sk m = ([], m).
Proof. done. Qed.

Lemma updateEntries_cons e es sk m :
  Split.updateEntries (e :: es) sk m =
  match m !! entryAddress sk e with
  | Some val =>
      let r := Split.updateEntries es sk (delete (entryAddress sk e) m) in
      (CfgEntry (key e) val :: r.1, r.2)
  | None =>
      let r := Split.updateEntries es sk m in (e :: r.1, r.2)
  end.
Proof.
  unfold Split.updateEntries at 1. simpl. unfold entryAddress.
  destruct (m !! _) as [val|]; rewrite updateEntries_acc; simpl; [done|].
  by rewrite eta_entry.
Qed.

Lemma updateEntries_app es1 es2 sk m :
  Split.updateEntries (es1 ++ es2) sk m =
  let r1 := Split.updateEntries es1 sk m in
  let r2 := Split.updateEntries es2 sk r1.2 in
  (r1.1 ++ r2.1, r2.2).
Proof.
  revert m. induction es1 as [|e es1 IH]; intros m; simpl.
  - by destruct (Split.updateEntries es2 sk m).
  - rewrite !updateEntries_cons. destruct (m !! _); simpl; by rewrite IH.
Qed.

(** The map after [updateEntries]: the addresses of the entries met are
    gone, every other address is as before. *)
Lemma updateEntries_lookup es sk m k :
  (Split.updateEntries es sk m).2 !! k =
  if decide (same_section sk k ∧ entryKey k ∈ key <$> es) then None else m !! k.
Proof.
  revert m. induction es as [|e es IH]; intros m.
  - simpl. case_decide as Hc; [|done]. destruct Hc as [_ Hc]. by apply elem_of_nil in Hc.
  - rewrite updateEntries_cons.
    assert (Hiff : (same_section sk k ∧ entryKey k ∈ key <$> e :: es)
                   ↔ k = entryAddress sk e
                     ∨ (same_section sk k ∧ entryKey k ∈ key <$> es)).
    { rewrite fmap_cons, elem_of_cons. split.
      - intros [Hs [He|Hin]]; [left|by right].
        rewrite (same_section_eq sk k Hs). unfold entryAddress. by rewrite He.
      - intros [->|[Hs Hin]].
        + split; [apply same_section_entryAddress|by left].
        + split; [done|by right]. }
    destruct (m !! entryAddress sk e) as [val|] eqn:Hek; simpl; rewrite IH;
      destruct (decide (same_section sk k ∧ entryKey k ∈ key <$> es)) as [Hc|Hc].
    + rewrite decide_True; [done|apply Hiff; by right].
    + destruct (decide (k = entryAddress sk e)) as [->|Hne].
      * rewrite lookup_delete_eq, decide_True; [done|apply Hiff; by left].
      * rewrite lookup_delete_ne, decide_False; [done|rewrite Hiff; tauto|done].
    + rewrite decide_True; [done|apply Hiff; by right].
    + destruct (decide (k = entryAddress sk e)) as [->|Hne].
      * rewrite decide_True; [done|apply Hiff; by left].
      * rewrite decide_False; [done|rewrite Hiff; tauto].
Qed.

(** The rebuilt entries depend on the map only through the addresses of
    the occurrence. *)
Lemma updateEntries_agree es sk m m0 :
  (∀ k, same_section sk k → m !! k = m0 !! k) →
  (Split.updateEntries es sk m).1 = (Split.updateEntries es sk m0).1.
Proof.
  revert m m0. induction es as [|e es IH]; intros m m0 Hag; [done|].
  rewrite !updateEntries_cons.
  rewrite <- (Hag _ (same_section_entryAddress sk e)).
  destruct (m !! entryAddress sk e); simpl; f_equal; apply IH; [|done].
  intros k Hk. destruct (decide (k = entryAddress sk e)) as [->|Hne].
  - by rewrite !lookup_delete_eq.
  - rewrite !lookup_delete_ne by done. by apply Hag.
Qed.

Lemma updateEntries_untouched es sk m :
  (∀ e, e ∈ es → m !! entryAddress sk e = None) →
  Split.updateEntries es sk m = (es, m).
Proof.
  induction es as [|e es IH]; intros Hnone; [done|].
  rewrite updateEntries_cons, Hnone by (apply elem_of_cons; by left).
  simpl. rewrite IH; [done|]. intros e' He'. apply Hnone, elem_of_cons. by right.
Qed.

(** ** Appending the left-over entries of an occurrence *)

Lemma filter_map_to_list_perm (P : rawConfigKey * string → Prop)
    `{∀ kv, Decision (P kv)} (m : configMap) :
  filter P (map_to_list m) ≡ₚ map_to_list (filter P m).
Proof.
  apply NoDup_Permutation.
  - apply NoDup_filter, NoDup_map_to_list.
  - apply NoDup_map_to_list.
  - intros [k v]. rewrite list_elem_of_filter, !elem_of_map_to_list.
    rewrite map_lookup_filter_Some. tauto.
Qed.

Lemma split_appendEntries_fold sk (L : list rawConfigKey)
    (es : list cfgEntry) (m : configMap) :
  NoDup L →
  let r :=
    foldl (fun st rawKey =>
             let '(entries, cfgMap) := st in
             if decide (sectionName rawKey ≠ sectionName sk
                        ∨ index rawKey ≠ index sk)
             then st
             else (entries ++ [CfgEntry (entryKey rawKey)
                                 (default EmptyString (cfgMap !! rawKey))],
                   delete rawKey cfgMap))
          (es, m) L in
  r.1 = es ++ ((fun k => CfgEntry (entryKey k) (default EmptyString (m !! k)))
                 <$> filter (same_section sk) L)
  ∧ ∀ k, r.2 !! k = if decide (same_section sk k ∧ k ∈ L) then None else m !! k.
Proof.
  revert es m. induction L as [|k0 L IH]; intros es m Hnd; simpl.
  - split; [by rewrite app_nil_r|]. intros k.
    rewrite decide_False; [done|]. intros [_ Hin]. by apply elem_of_nil in Hin.
  - apply NoDup_cons in Hnd as [Hk0 Hnd].
    destruct (decide (sectionName k0 ≠ sectionName sk ∨ index k0 ≠ index sk))
      as [Hdiff|Hsame].
    + assert (Hns : ¬ same_section sk k0) by (unfold same_section; tauto).
      destruct (IH es m Hnd) as [IH1 IH2]. split.
      * rewrite IH1. by rewrite filter_cons_False.
      * intros k. rewrite IH2.
        destruct (decide (same_section sk k ∧ k ∈ L)) as [Hc|Hc].
        -- rewrite decide_True; [done|]. destruct Hc. split; [done|]. by right.
        -- rewrite decide_False; [done|]. intros [Hs Hin].
           apply elem_of_cons in Hin as [->|Hin]; tauto.
    + assert (Hs : same_section sk k0).
      { unfold same_section.
        destruct (decide (sectionName k0 = sectionName sk));
          destruct (decide (index k0 = index sk)); tauto. }
      destruct (IH (es ++ [CfgEntry (entryKey k0) (default EmptyString (m !! k0))])
                  (delete k0 m) Hnd) as [IH1 IH2].
      split.
      * rewrite IH1, filter_cons_True by done. rewrite fmap_cons, <- app_assoc.
        simpl. do 2 f_equal. apply Forall_fmap_ext, Forall_forall.
        intros k Hk. apply list_elem_of_filter in Hk as [_ Hk].
        rewrite lookup_delete_ne; [done|]. by intros ->.
      * intros k. rewrite IH2.
        destruct (decide (k = k0)) as [->|Hne].
        -- rewrite lookup_delete_eq. rewrite (decide_True (P := _ ∧ k0 ∈ k0 :: L)).
           ++ by case_decide.
           ++ split; [done|by left].
        -- rewrite lookup_delete_ne by done.
           destruct (decide (same_section sk k ∧ k ∈ L)) as [Hc|Hc].
           ++ rewrite decide_True; [done|]. destruct Hc. split; [done|]. by right.
           ++ rewrite decide_False; [done|]. intros [Hsk Hin].
              apply elem_of_cons in Hin as [->|Hin]; tauto.
Qed.

Lemma inline_appendNew_fold sk (L : list (rawConfigKey * string))
    (es : list cfgEntry) (m : configMap) :
  NoDup L.*1 →
  let r :=
    foldl (fun st kv =>
             let '(es, tmp) := st in
             let '(rawKey, rawValue) := kv in
             if decide (sectionName rawKey ≠ sectionName sk ∨ index rawKey ≠ index sk)
             then st
             else (es ++ [CfgEntry (entryKey rawKey) rawValue], delete rawKey tmp))
          (es, m) L in
  r.1 = es ++ (entryOf <$> filter (fun kv => same_section sk kv.1) L)
  ∧ ∀ k, r.2 !! k = if decide (same_section sk k ∧ k ∈ L.*1) then None else m !! k.
Proof.
  revert es m. induction L as [|[k0 v0] L IH]; intros es m Hnd; simpl.
  - split; [by rewrite app_nil_r|]. intros k.
    rewrite decide_False; [done|]. intros [_ Hin]. by apply elem_of_nil in Hin.
  - apply NoDup_cons in Hnd as [Hk0 Hnd].
    destruct (decide (sectionName k0 ≠ sectionName sk ∨ index k0 ≠ index sk))
      as [Hdiff|Hsame].
    + assert (Hns : ¬ same_section sk k0) by (unfold same_section; tauto).
      destruct (IH es m Hnd) as [IH1 IH2]. split.
      * rewrite IH1. by rewrite filter_cons_False.
      * intros k. rewrite IH2.
        destruct (decide (same_section sk k ∧ k ∈ L.*1)) as [Hc|Hc].
        -- rewrite decide_True; [done|]. destruct Hc. split; [done|]. by right.
        -- rewrite decide_False; [done|]. intros [Hs Hin].
           apply elem_of_cons in Hin as [->|Hin]; tauto.
    + assert (Hs : same_section sk k0).
      { unfold same_section.
        destruct (decide (sectionName k0 = sectionName sk));
          destruct (decide (index k0 = index sk)); tauto. }
      destruct (IH (es ++ [CfgEntry (entryKey k0) v0]) (delete k0 m) Hnd)
        as [IH1 IH2].
      split.
      * rewrite IH1, filter_cons_True by done. rewrite fmap_cons, <- app_assoc.
        done.
      * intros k. rewrite IH2.
        destruct (decide (k = k0)) as [->|Hne].
        -- rewrite lookup_delete_eq. rewrite (decide_True (P := _ ∧ k0 ∈ k0 :: _)).
           ++ by case_decide.
           ++ split; [done|by left].
        -- rewrite lookup_delete_ne by done.
           destruct (decide (same_section sk k ∧ k ∈ L.*1)) as [Hc|Hc].
           ++ rewrite decide_True; [done|]. destruct Hc. split; [done|]. by right.
           ++ rewrite decide_False; [done|]. intros [Hsk Hin].
              apply elem_of_cons in Hin as [->|Hin]; tauto.
Qed.

Lemma entryOf_keys_values (m : configMap) (P : rawConfigKey → Prop)
    `{∀ k, Decision (P k)} (l : list (rawConfigKey * string)) :
  (∀ kv, kv ∈ l → m !! kv.1 = Some kv.2) →
  (fun k => CfgEntry (entryKey k) (default EmptyString (m !! k))) <$> filter P l.*1
  = entryOf <$> filter (fun kv => P kv.1) l.
Proof.
  induction l as [|[k v] l IH]; intros Hl; [done|].
  rewrite fmap_cons. simpl.
  assert (Hk : m !! k = Some v) by (apply (Hl (k, v)); by left).
  assert (Hrest : ∀ kv, kv ∈ l → m !! kv.1 = Some kv.2).
  { intros kv Hkv. apply Hl. by right. }
  destruct (decide (P k)) as [HP|HP].
  - rewrite !filter_cons_True by done. rewrite !fmap_cons, IH by done.
    unfold entryOf at 2. simpl. by rewrite Hk.
  - rewrite !filter_cons_False by done. by apply IH.
Qed.

Lemma split_appendEntries_spec rt :
  oracle_ok rt → appendNew_spec (Split.appendEntries rt).
Proof.
  intros Hv es sk m. unfold Split.appendEntries.
  pose proof (split_sortedConfigKeys_perm rt Hv m) as Hperm.
  assert (Hnd : NoDup (Split.sortedConfigKeys rt m)).
  { rewrite Hperm. apply NoDup_fst_map_to_list. }
  destruct (split_appendEntries_fold sk _ es m Hnd) as [H1 H2].
  cbv zeta in H1, H2. split.
  - intros k. rewrite H2.
    destruct (decide (same_section sk k)) as [Hs|Hs].
    + destruct (decide (k ∈ Split.sortedConfigKeys rt m)) as [Hin|Hin].
      * by rewrite decide_True.
      * rewrite decide_False by tauto.
        rewrite Hperm, elem_of_keys_map_to_list in Hin.
        by apply eq_None_not_Some.
    + by rewrite decide_False by tauto.
  - eexists. split; [exact H1|].
    rewrite Hperm.
    rewrite (entryOf_keys_values m (same_section sk)).
    + by rewrite filter_map_to_list_perm.
    + intros [k v] Hkv. by apply elem_of_map_to_list.
Qed.

Lemma inline_appendNew_spec rt :
  oracle_ok rt → appendNew_spec (inline_appendNew rt).
Proof.
  intros Hv es sk m. unfold inline_appendNew.
  destruct (inline_appendNew_fold sk _ es m (visit_keys_NoDup rt Hv m))
    as [H1 H2].
  cbv zeta in H1, H2. split.
  - intros k. rewrite H2.
    destruct (decide (same_section sk k)) as [Hs|Hs].
    + destruct (decide (k ∈ (visit rt _ (map_to_list m)).*1)) as [Hin|Hin].
      * by rewrite decide_True.
      * rewrite decide_False by tauto.
        rewrite (visit_keys_perm rt Hv), elem_of_keys_map_to_list in Hin.
        by apply eq_None_not_Some.
    + by rewrite decide_False by tauto.
  - eexists. split; [exact H1|].
    rewrite (visit_perm rt Hv _ (map_to_list m)). by rewrite filter_map_to_list_perm.
Qed.

(** ** Counting occurrences *)

Lemma occurrence_nil n : occurrence [] n = 0.
Proof. done. Qed.

Lemma occurrence_snoc seen s n :
  occurrence (seen ++ [s]) n
  = occurrence seen n + (if decide (name s = n) then 1 else 0).
Proof.
  unfold occurrence. rewrite filter_app, length_app.
  destruct (decide (name s = n)) as [Hn|Hn].
  - rewrite filter_cons_True by done. simpl. lia.
  - rewrite filter_cons_False by done. simpl. lia.
Qed.

Lemma occurrence_bounds seen n : 0 <= occurrence seen n <= Z.of_nat (length seen).
Proof.
  unfold occurrence. pose proof (length_filter (fun s => name s = n) seen). lia.
Qed.

Lemma occurrences_from_app seen l1 l2 :
  occurrences_from seen (l1 ++ l2)
  = occurrences_from seen l1 ++ occurrences_from (seen ++ l1) l2.
Proof.
  revert seen. induction l1 as [|s l1 IH]; intros seen; simpl.
  - by rewrite app_nil_r.
  - rewrite IH. by rewrite <- app_assoc.
Qed.

Lemma occurrences_from_snoc seen s :
  occurrences_from [] (seen ++ [s])
  = occurrences_from [] seen ++ [(occurrence seen (name s), s)].
Proof. by rewrite occurrences_from_app. Qed.

Lemma consumed_snoc seen s m k :
  consumed (seen ++ [s]) m k ↔
  consumed seen m k
  ∨ (same_section (sectionAddress s (occurrence seen (name s))) k
     ∧ (m !! sectionAddress s (occurrence seen (name s)) = Some EmptyString
        → entryKey k = EmptyString)).
Proof.
  unfold consumed, same_section, sectionAddress. simpl.
  rewrite occurrence_snoc.
  pose proof (occurrence_bounds seen (sectionName k)).
  destruct (decide (name s = sectionName k)) as [Hn|Hn].
  - rewrite Hn. split.
    + intros [Hi Hd].
      destruct (decide (index k = occurrence seen (sectionName k))) as [He|He].
      * right. split; [done|]. rewrite <- He. done.
      * left. split; [lia|done].
    + intros [[Hi Hd]|[[_ He] Hd]].
      * split; [lia|done].
      * split; [lia|]. by rewrite He.
  - split.
    + intros [Hi Hd]. left. split; [lia|done].
    + intros [[Hi Hd]|[[Hc _] _]]; [|congruence]. split; [lia|done].
Qed.

Lemma occurrences_from_snd seen l : (occurrences_from seen l).*2 = l.
Proof.
  revert seen. induction l as [|s l IH]; intros seen; simpl; [done|].
  by rewrite IH.
Qed.

Lemma occurrence_app_le seen l n : occurrence seen n <= occurrence (seen ++ l) n.
Proof. unfold occurrence. rewrite filter_app, length_app. lia. Qed.

Lemma occurrences_from_bounds seen l j s0 :
  (j, s0) ∈ occurrences_from seen l →
  occurrence seen (name s0) <= j < occurrence (seen ++ l) (name s0).
Proof.
  revert seen. induction l as [|s l IH]; intros seen Hin; simpl in Hin.
  - by apply elem_of_nil in Hin.
  - apply elem_of_cons in Hin as [Heq|Hin].
    + injection Heq as Hj Hs. subst j s0.
      pose proof (occurrence_app_le (seen ++ [s]) l (name s)) as Hle.
      rewrite <- app_assoc in Hle. simpl in Hle.
      rewrite occurrence_snoc, decide_True in Hle by done. lia.
    + specialize (IH _ Hin). rewrite <- app_assoc in IH. simpl in IH.
      pose proof (occurrence_app_le seen [s] (name s0)). lia.
Qed.

Lemma occurrences_from_elem seen l js : js ∈ occurrences_from seen l → js.2 ∈ l.
Proof.
  intros Hin. rewrite <- (occurrences_from_snd seen l).
  apply list_elem_of_fmap. by exists js.
Qed.

(** ** The merge pass *)

Section MergePass.
Context (appendNew : list cfgEntry → rawConfigKey → configMap
                     → list cfgEntry * configMap).
Hypothesis appendNew_ok : appendNew_spec appendNew.

Lemma merge_inv_init m : merge_inv m [] ([], ∅, m).
Proof.
  split; simpl.
  - intros n. by rewrite lookup_empty.
  - intros k. rewrite decide_False; [done|].
    unfold consumed. rewrite occurrence_nil. lia.
  - constructor.
Qed.

Lemma counts_step (counts : gmap string Z) seen s :
  Z.of_nat (length (seen ++ [s])) < uint_modulus →
  (∀ n, counts !! n = if decide (occurrence seen n = 0) then None
                      else Some (occurrence seen n)) →
  let counts' :=
    match counts !! name s with
    | Some count => <[name s := uint_add count 1]> counts
    | None => <[name s := 1]> counts
    end in
  (∀ n, counts' !! n = if decide (occurrence (seen ++ [s]) n = 0) then None
                       else Some (occurrence (seen ++ [s]) n))
  ∧ uint_sub (default 0 (counts' !! name s)) 1 = occurrence seen (name s).
Proof.
  intros Hlen Hc. rewrite length_app in Hlen. simpl in Hlen.
  pose proof (occurrence_bounds seen (name s)) as Hb.
  assert (Heq : match counts !! name s with
                | Some count => <[name s := uint_add count 1]> counts
                | None => <[name s := 1]> counts
                end = <[name s := occurrence seen (name s) + 1]> counts).
  { rewrite Hc. case_decide as H0; [by rewrite H0|].
    unfold uint_add. rewrite Z.mod_small; [done|unfold uint_modulus in *; lia]. }
  simpl. rewrite Heq. split.
  - intros n. rewrite occurrence_snoc.
    destruct (decide (name s = n)) as [<-|Hn].
    + rewrite lookup_insert_eq, decide_False by lia. done.
    + rewrite lookup_insert_ne, Hc, Z.add_0_r by done. done.
  - rewrite lookup_insert_eq. simpl. unfold uint_sub.
    replace (occurrence seen (name s) + 1 - 1) with (occurrence seen (name s)) by lia.
    apply Z.mod_small. unfold uint_modulus in *. lia.
Qed.

Lemma merge_inv_step m seen st s :
  Z.of_nat (length (seen ++ [s])) < uint_modulus →
  merge_inv m seen st →
  merge_inv m (seen ++ [s]) (merge_body_with appendNew st s).
Proof.
  intros Hlen [Hc Hm Ho]. destruct st as [[out counts] mt]. simpl in *.
  destruct (counts_step counts seen s Hlen Hc) as [Hc' Hidx].
  cbv zeta in Hc', Hidx.
  unfold merge_body_with.
  set (counts' := match counts !! name s with
                  | Some count => <[name s := uint_add count 1]> counts
                  | None => <[name s := 1]> counts
                  end) in *.
  rewrite Hidx. fold (sectionAddress s (occurrence seen (name s))).
  set (sk := sectionAddress s (occurrence seen (name s))).
  assert (Hsk : ∀ k, same_section sk k → mt !! k = m !! k).
  { intros k [Hn Hi]. rewrite Hm. apply decide_False.
    unfold consumed. simpl in Hn, Hi. rewrite Hn, Hi. lia. }
  assert (Hsksk : same_section sk sk) by done.
  destruct (decide (mt !! sk = Some EmptyString)) as [Hdel|Hkeep].
  - split; simpl.
    + exact Hc'.
    + intros k. rewrite (decide_ext _ _ _ _ (consumed_snoc seen s m k)).
      fold sk. rewrite <- (Hsk sk Hsksk).
      destruct (decide (k = sk)) as [->|Hne].
      * rewrite lookup_delete_eq, decide_True; [done|]. right. done.
      * rewrite lookup_delete_ne, Hm by done. apply decide_ext.
        split; [tauto|]. intros [?|[Hs Hd]]; [done|].
        exfalso. apply Hne. rewrite (same_section_eq sk k Hs).
        by rewrite (Hd Hdel).
    + rewrite occurrences_from_snoc. unfold kept. rewrite filter_app.
      rewrite filter_cons_False, app_nil_r; [exact Ho|].
      simpl. fold sk. rewrite <- (Hsk sk Hsksk). by intros [].
  - destruct (Split.updateEntries (entries s) sk mt) as [es1 m1] eqn:HU.
    destruct (appendNew es1 sk m1) as [es2 m2] eqn:HA.
    destruct (appendNew_ok es1 sk m1) as [HA1 (news & HA2 & HA3)].
    rewrite HA in HA1, HA2. simpl in HA1, HA2.
    assert (Hm1 : ∀ k, m1 !! k = (Split.updateEntries (entries s) sk mt).2 !! k)
      by (by rewrite HU).
    split; simpl.
    + exact Hc'.
    + intros k. rewrite HA1.
      rewrite (decide_ext _ _ _ _ (consumed_snoc seen s m k)).
      fold sk. rewrite <- (Hsk sk Hsksk).
      destruct (decide (same_section sk k)) as [Hs|Hs].
      * rewrite decide_True; [done|]. right. split; [done|]. by intros ?.
      * rewrite Hm1, updateEntries_lookup, decide_False, Hm by tauto.
        apply decide_ext. tauto.
    + rewrite occurrences_from_snoc. unfold kept. rewrite filter_app.
      rewrite filter_cons_True.
      2:{ simpl. fold sk. by rewrite <- (Hsk sk Hsksk). }
      apply Forall2_app; [exact Ho|]. constructor; [|constructor].
      split; [done|]. split; [done|]. simpl. fold sk.
      exists news. split.
      * rewrite HA2. f_equal.
        replace es1 with (Split.updateEntries (entries s) sk mt).1 by (by rewrite HU).
        by apply updateEntries_agree.
      * rewrite HA3. unfold leftover.
        enough (filter (fun kv : rawConfigKey * string => same_section sk kv.1) m1
                = filter (fun kv : rawConfigKey * string => same_section sk kv.1)
                    (Split.updateEntries (entries s) sk m).2) as -> by done.
        apply map_eq. intros k. rewrite !map_lookup_filter.
        rewrite Hm1, !updateEntries_lookup.
        destruct (decide (same_section sk k)) as [Hs|Hs].
        -- rewrite (Hsk k Hs). done.
        -- rewrite !decide_False by tauto.
           destruct (mt !! k), (m !! k); simpl; rewrite ?option_guard_False; done.
Qed.

Lemma merge_inv_loop m cfg :
  Z.of_nat (length cfg) < uint_modulus →
  merge_inv m cfg (foldl (merge_body_with appendNew) ([], ∅, m) cfg).
Proof.
  induction cfg as [|s cfg IH] using rev_ind; intros Hlen.
  - apply merge_inv_init.
  - rewrite foldl_snoc. apply merge_inv_step; [done|].
    apply IH. rewrite length_app in Hlen. lia.
Qed.
End MergePass.

(** ** The two loop bodies are instances of the shared one *)

Lemma split_body_shared rt :
  Split.updateSections_body rt = merge_body_with (Split.appendEntries rt).
Proof. reflexivity. Qed.

Lemma inline_body_shared rt :
  Inline.merge_body rt = merge_body_with (inline_appendNew rt).
Proof. reflexivity. Qed.

Lemma mergePass_inv r rt cfg m :
  oracle_ok rt →
  Z.of_nat (length cfg) < uint_modulus →
  ∃ counts, merge_inv m cfg ((mergePass r rt cfg m).1, counts,
                             (mergePass r rt cfg m).2).
Proof.
  intros Hv Hlen. destruct r; simpl.
  - unfold Split.updateSections. rewrite split_body_shared.
    pose proof (merge_inv_loop _ (split_appendEntries_spec rt Hv) m cfg Hlen) as Hinv.
    destruct (foldl _ _ cfg) as [[out counts] m']. by exists counts.
  - rewrite inline_body_shared.
    pose proof (merge_inv_loop _ (inline_appendNew_spec rt Hv) m cfg Hlen) as Hinv.
    destruct (foldl _ _ cfg) as [[out counts] m']. by exists counts.
Qed.

(** ** The append pass *)

Lemma override_pipeline r rt cfg d m :
  extractKeys r rt d = Some m →
  m ≠ ∅ →
  override r rt cfg d
  = Some ((mergePass r rt cfg m).1 ++ appended r rt (mergePass r rt cfg m).2).
Proof.
  intros Hex Hne. apply map_size_non_empty_iff in Hne.
  destruct r; simpl in *.
  - unfold Split.qemuRawCfgOverride. rewrite Hex. simpl.
    rewrite decide_False by done.
    destruct (Split.updateSections rt cfg m) as [newCfg m'] eqn:HU. simpl.
    unfold Split.appendSections, appended. simpl.
    by rewrite !foldl_snoc_fmap.
  - unfold Inline.qemuRawCfgOverride. rewrite Hex. simpl.
    rewrite decide_False by done.
    destruct (foldl _ _ cfg) as [[newCfg counts] m']. simpl.
    unfold appended. simpl. by rewrite !foldl_snoc_fmap.
Qed.

Lemma newSectionsOf_over r rt m :
  newSectionsOf r rt m
  = newSections_over m (match r with
                        | SplitRev => Split.sortedConfigKeys rt m
                        | InlineRev => Inline.sortedConfigKeys rt m
                        end).
Proof. by destruct r. Qed.

Lemma newSections_over_lookup m L key :
  newSections_over m L !! key =
  if decide (entryKey key = EmptyString ∧ filter (feeds key) L ≠ [])
  then Some (CfgSection (sectionName key) EmptyString
               (entryAt m <$> filter (feeds key) L))
  else None.
Proof.
  unfold newSections_over.
  induction L as [|k L IH] using rev_ind.
  - simpl. rewrite lookup_empty, decide_False; [done|]. by intros [_ []].
  - rewrite foldl_snoc, filter_app.
    destruct (decide (entryKey k = EmptyString)) as [Hk|Hk].
    + rewrite filter_cons_False, app_nil_r by (unfold feeds; tauto). exact IH.
    + set (sectionKey := RawConfigKey (sectionName k) (index k) EmptyString).
      set (tmp := foldl _ ∅ L) in *.
      destruct (decide (key = sectionKey)) as [->|Hne].
      * rewrite lookup_insert_eq. rewrite filter_cons_True by (by split).
        rewrite decide_True.
        2:{ split; [done|]. by destruct (filter (feeds sectionKey) L). }
        f_equal. rewrite fmap_app. simpl.
        revert IH. case_decide as Hc; intros ->; simpl; [done|].
        destruct (filter (feeds sectionKey) L) as [|x l] eqn:Hf; [done|].
        exfalso. apply Hc. by split.
      * rewrite lookup_insert_ne by done.
        destruct (decide (entryKey key = EmptyString)) as [He|He].
        -- rewrite filter_cons_False, app_nil_r; [exact IH|].
           intros [_ [Hn Hi]]. apply Hne. unfold sectionKey. rewrite Hn, Hi.
           destruct key; simpl in *. by subst.
        -- rewrite IH, !decide_False by tauto. done.
Qed.



Lemma sortedKeys_elem_of r rt (m : configMap) k :
  oracle_ok rt →
  k ∈ match r with
      | SplitRev => Split.sortedConfigKeys rt m
      | InlineRev => Inline.sortedConfigKeys rt m
      end ↔ is_Some (m !! k).
Proof.
  intros Hv. rewrite <- elem_of_keys_map_to_list.
  destruct r; [rewrite split_sortedConfigKeys_perm by done
              |rewrite inline_sortedConfigKeys_perm by done]; done.
Qed.

Lemma appended_empty r rt : oracle_ok rt → appended r rt ∅ = [].
Proof.
  intros Hv. unfold appended. rewrite newSectionsOf_over.
  assert (HL : match r with
               | SplitRev => Split.sortedConfigKeys rt ∅
               | InlineRev => Inline.sortedConfigKeys rt ∅
               end = []).
  { apply Permutation_nil_r.
    destruct r; [rewrite split_sortedConfigKeys_perm by done
                |rewrite inline_sortedConfigKeys_perm by done];
      by rewrite map_to_list_empty. }
  rewrite HL. unfold newSections_over. simpl. rewrite map_to_list_empty.
  assert (Hnil : visit rt _ (@nil (rawConfigKey * cfgSection)) = []).
  { apply Permutation_nil_r. apply (visit_perm rt Hv). }
  by rewrite Hnil.
Qed.

(** An address with an entry key that the merge pass leaves in the map
    makes the append pass add a section of its name, with no comment, that
    holds its entry. *)
Lemma appended_holds r rt (m : configMap) k v :
  oracle_ok rt →
  m !! k = Some v →
  entryKey k ≠ EmptyString →
  ∃ sec, sec ∈ appended r rt m
         ∧ name sec = sectionName k ∧ comment sec = EmptyString
         ∧ CfgEntry (entryKey k) v ∈ entries sec.
Proof.
  intros Hv Hk Hne.
  set (key := RawConfigKey (sectionName k) (index k) EmptyString).
  set (L := match r with
            | SplitRev => Split.sortedConfigKeys rt m
            | InlineRev => Inline.sortedConfigKeys rt m
            end).
  assert (HkL : k ∈ filter (feeds key) L).
  { apply list_elem_of_filter. split; [by split|].
    apply (sortedKeys_elem_of r rt m k Hv). by exists v. }
  assert (Hlook : newSectionsOf r rt m !! key
                  = Some (CfgSection (sectionName k) EmptyString
                            (entryAt m <$> filter (feeds key) L))).
  { rewrite newSectionsOf_over, newSections_over_lookup. fold L.
    rewrite decide_True; [done|]. split; [done|].
    intros Hnil. rewrite Hnil in HkL. by apply elem_of_nil in HkL. }
  eexists. split; [|split; [|split]].
  - unfold appended. apply list_elem_of_fmap. exists key. split.
    + rewrite Hlook. reflexivity.
    + rewrite sort_Slice_perm, (visit_keys_perm rt Hv) by done.
      apply elem_of_keys_map_to_list. by eexists.
  - done.
  - done.
  - simpl. apply list_elem_of_fmap. exists k. split; [|done].
    unfold entryAt. by rewrite Hk.
Qed.

(** ** Building the override map *)

Lemma extract_skip_unmatched r (l : list (string * string)) rv :
  (∀ kv, kv ∈ l → FindStringSubmatch (digitsOf r) kv.1 = None) →
  match r with
  | SplitRev =>
      foldl (fun acc kv =>
               rv ← acc;
               let '(rawKey, value) := kv in
               match FindStringSubmatch OneOrMoreDigits rawKey with
               | None => Some rv
               | Some (m1, m2, m3) =>
                   if decide (m2 = EmptyString)
                   then Some (<[RawConfigKey m1 0 m3 := value]> rv)
                   else
                     match Atoi m2 with
                     | Some i =>
                         if i <? 0 then None
                         else Some (<[RawConfigKey m1 i m3 := value]> rv)
                     | None => None
                     end
               end) (Some rv) l
  | InlineRev =>
      foldl (fun acc kv =>
               rv ← acc;
               let '(rawKey, value) := kv in
               match FindStringSubmatch OneDigit rawKey with
               | None => Some rv
               | Some (m1, m2, m3) =>
                   if decide (m2 = EmptyString)
                   then Some (<[RawConfigKey m1 0 m3 := value]> rv)
                   else
                     match Atoi m2 with
                     | Some i =>
                         if (9 <? i) || (i <? 0) then None
                         else Some (<[RawConfigKey m1 i m3 := value]> rv)
                     | None => None
                     end
               end) (Some rv) l
  end = Some (rv : configMap).
Proof.
  induction l as [|[k v] l IH]; intros Hl; [by destruct r|].
  assert (Hk : FindStringSubmatch (digitsOf r) k = None)
    by (apply (Hl (k, v)); by left).
  assert (Hrest : ∀ kv, kv ∈ l → FindStringSubmatch (digitsOf r) kv.1 = None)
    by (intros kv Hkv; apply Hl; by right).
  specialize (IH Hrest).
  destruct r; simpl in *; rewrite Hk; exact IH.
Qed.

Lemma extract_no_match r rt d :
  oracle_ok rt →
  (∀ k v, d !! k = Some v → FindStringSubmatch (digitsOf r) k = None) →
  extractKeys r rt d = Some ∅.
Proof.
  intros Hv Hd.
  pose proof (extract_skip_unmatched r (visit rt _ (map_to_list d)) ∅) as H.
  destruct r; apply H; intros [k v] Hkv; apply (Hd k v);
    by apply (visit_elem_of rt Hv).
Qed.

(** ** The keys the pattern accepts *)

Lemma append_cons c (s1 s2 : string) : String c s1 +:+ s2 = String c (s1 +:+ s2).
Proof. reflexivity. Qed.

Lemma strip_prefix_append p s : strip_prefix p (p +:+ s) = Some s.
Proof.
  induction p as [|c p IH]; [done|].
  rewrite append_cons. simpl. by rewrite Ascii.eqb_refl.
Qed.

Lemma span_append (p : ascii → bool) a c rest :
  forallb_string p a = true → p c = false →
  span p (a +:+ String c rest) = (a, String c rest).
Proof.
  intros Ha Hc. induction a as [|x a IH].
  - change (EmptyString +:+ String c rest) with (String c rest). simpl. by rewrite Hc.
  - rewrite append_cons. simpl in *. apply andb_true_iff in Ha as [Hx Ha].
    rewrite Hx, IH by done. done.
Qed.


Lemma decimal_value_nonneg ds acc :
  forallb_string is_digit ds = true → 0 <= acc → 0 <= decimal_value acc ds.
Proof.
  revert acc. induction ds as [|c ds IH]; intros acc Hd Hacc; simpl in *; [done|].
  apply andb_true_iff in Hd as [Hc Hd]. apply IH; [done|].
  unfold is_digit in Hc. apply andb_true_iff in Hc as [Hlo _].
  apply Nat.leb_le in Hlo. lia.
Qed.


(** ** Sections the map does not address *)

Lemma leftover_nil (m : configMap) sk es :
  (∀ k, same_section sk k → (Split.updateEntries es sk m).2 !! k = None) →
  leftover m sk es = [].
Proof.
  intros Hnone. unfold leftover.
  enough (filter (fun kv : rawConfigKey * string => same_section sk kv.1)
            (Split.updateEntries es sk m).2 = ∅) as ->.
  { by rewrite map_to_list_empty. }
  apply map_empty. intros k. apply map_lookup_filter_None. right.
  intros v Hv Hs. simpl in Hs. rewrite (Hnone k Hs) in Hv. discriminate.
Qed.

(** A section none of whose addresses is in the map is copied as it is. *)
Lemma merged_untouched (m : configMap) j s0 o :
  (∀ k, same_section (sectionAddress s0 j) k → m !! k = None) →
  merged m (j, s0) o → o = s0.
Proof.
  intros Hnone (Hn & Hc & news & He & Hp). simpl in *.
  rewrite updateEntries_untouched in He
    by (intros e _; apply Hnone, same_section_entryAddress).
  rewrite leftover_nil in Hp.
  2:{ intros k Hk. rewrite updateEntries_untouched; [by apply Hnone|].
      intros e _. apply Hnone, same_section_entryAddress. }
  apply Permutation_nil_r in Hp. subst news. rewrite app_nil_r in He.
  destruct o, s0; simpl in *. by subst.
Qed.

Lemma Forall2_merged_untouched (m : configMap) l out :
  (∀ j s0 k, (j, s0) ∈ l → same_section (sectionAddress s0 j) k → m !! k = None) →
  Forall2 (merged m) l out → out = l.*2.
Proof.
  intros Hnone HF. induction HF as [|[j s0] o l out Hm HF IH]; [done|].
  rewrite fmap_cons. simpl. f_equal.
  - apply (merged_untouched m j); [|done].
    intros k Hk. apply (Hnone j s0); [by left|done].
  - apply IH. intros j' s' k Hin. apply Hnone. by right.
Qed.


Lemma kept_app m l1 l2 : kept m (l1 ++ l2) = kept m l1 ++ kept m l2.
Proof. apply filter_app. Qed.

(** ** An override among others *)

Lemma updateEntries_length es sk m :
  length (Split.updateEntries es sk m).1 = length es.
Proof.
  revert m. induction es as [|e es IH]; intros m; [done|].
  rewrite updateEntries_cons. destruct (m !! _); simpl; by rewrite IH.
Qed.

Lemma updateEntries_first sk (m : configMap) k v v2 pre_e post_e :
  k ∉ key <$> pre_e →
  m !! RawConfigKey (sectionName sk) (index sk) k = Some v2 →
  (Split.updateEntries (pre_e ++ CfgEntry k v :: post_e) sk m).1 !! length pre_e
  = Some (CfgEntry k v2).
Proof.
  intros Hk Hm. rewrite updateEntries_app. simpl.
  rewrite lookup_app_r by (rewrite updateEntries_length; lia).
  rewrite updateEntries_length, Nat.sub_diag, updateEntries_cons.
  unfold entryAddress. simpl.
  rewrite updateEntries_lookup, decide_False, Hm by (simpl; tauto). done.
Qed.

Lemma updateEntries_unaddressed es sk (m : configMap) j e :
  es !! j = Some e →
  m !! entryAddress sk e = None →
  (Split.updateEntries es sk m).1 !! j = Some e.
Proof.
  revert m j. induction es as [|e0 es IH]; intros m j Hj Hm; [done|].
  rewrite updateEntries_cons. destruct j as [|j]; simpl in Hj.
  - injection Hj as ->. by rewrite Hm.
  - destruct (m !! entryAddress sk e0) eqn:H0; simpl; apply IH; try done.
    apply lookup_delete_None. by right.
Qed.

(** The occurrence [s] of the merge pass, when the map does not delete
    it: it is merged at the position the kept sections left of it give it,
    an entry whose address has an override takes the override at its own
    position, first entry of that key, and an entry with no override is as
    before. *)
Lemma override_in_place r rt pre s post (d : gmap string string) (m : configMap) :
  oracle_ok rt →
  Z.of_nat (length (pre ++ s :: post)) < uint_modulus →
  extractKeys r rt d = Some m →
  m ≠ ∅ →
  m !! sectionAddress s (occurrence pre (name s)) ≠ Some EmptyString →
  ∃ out_pre o out_post,
    override r rt (pre ++ s :: post) d = Some (out_pre ++ o :: out_post)
    ∧ Forall2 (merged m) (kept m (occurrences_from [] pre)) out_pre
    ∧ name o = name s ∧ comment o = comment s
    ∧ (∀ k v v2 pre_e post_e,
         entries s = pre_e ++ CfgEntry k v :: post_e →
         k ∉ key <$> pre_e →
         m !! RawConfigKey (name s) (occurrence pre (name s)) k = Some v2 →
         entries o !! length pre_e = Some (CfgEntry k v2))
    ∧ (∀ j e,
         entries s !! j = Some e →
         m !! RawConfigKey (name s) (occurrence pre (name s)) (key e) = None →
         entries o !! j = Some e).
Proof.
  intros Hv Hlen Hex Hne Hkeep.
  rewrite (override_pipeline r rt _ d m Hex Hne).
  destruct (mergePass_inv r rt (pre ++ s :: post) m Hv Hlen) as [counts [_ _ Ho]].
  simpl in Ho.
  rewrite occurrences_from_app in Ho. simpl in Ho.
  rewrite kept_app in Ho. unfold kept at 2 in Ho.
  rewrite filter_cons_True in Ho by done.
  apply Forall2_app_inv_l in Ho as (o1 & o23 & Ho1 & Ho23 & Heq).
  apply Forall2_cons_inv_l in Ho23 as (o & o3 & Ho2 & Ho3 & ->).
  exists o1, o, (o3 ++ appended r rt (mergePass r rt (pre ++ s :: post) m).2).
  rewrite Heq, <- app_assoc. split; [done|]. split; [done|].
  destruct Ho2 as (Hn & Hc & news & Hes & _). simpl in *.
  split; [done|]. split; [done|]. split.
  - intros k v v2 pre_e post_e He Hk Hm. rewrite Hes, He.
    rewrite lookup_app_l.
    + by apply updateEntries_first.
    + rewrite updateEntries_length, length_app. simpl. lia.
  - intros j e Hj Hm. rewrite Hes.
    rewrite lookup_app_l.
    + by apply updateEntries_unaddressed.
    + rewrite updateEntries_length. by apply lookup_lt_Some in Hj.
Qed.

(** ** A dictionary that makes a single override *)

Lemma updateEntries_single sk k v v2 pre_e post_e :
  k ∉ key <$> pre_e →
  Split.updateEntries (pre_e ++ CfgEntry k v :: post_e) sk
    {[ RawConfigKey (sectionName sk) (index sk) k := v2 ]}
  = (pre_e ++ CfgEntry k v2 :: post_e, ∅).
Proof.
  intros Hk. rewrite updateEntries_app.
  rewrite (updateEntries_untouched pre_e).
  2:{ intros e He. apply lookup_singleton_None. unfold entryAddress.
      intros Heq. injection Heq as Heq. apply Hk.
      apply list_elem_of_fmap. by exists e. }
  simpl. rewrite updateEntries_cons. unfold entryAddress. simpl.
  rewrite lookup_singleton_eq. simpl. rewrite delete_singleton_eq.
  rewrite updateEntries_untouched; [done|].
  intros e _. apply lookup_empty.
Qed.

Lemma single_override r rt pre s post (d : gmap string string) k v v2 pre_e post_e :
  oracle_ok rt →
  Z.of_nat (length (pre ++ s :: post)) < uint_modulus →
  extractKeys r rt d
  = Some {[ RawConfigKey (name s) (occurrence pre (name s)) k := v2 ]} →
  entries s = pre_e ++ CfgEntry k v :: post_e →
  k ∉ key <$> pre_e →
  k ≠ EmptyString ∨ v2 ≠ EmptyString →
  override r rt (pre ++ s :: post) d
  = Some (pre ++ CfgSection (name s) (comment s)
                   (pre_e ++ CfgEntry k v2 :: post_e) :: post).
Proof.
  intros Hv Hlen Hex He Hk Hor.
  set (K := RawConfigKey (name s) (occurrence pre (name s)) k) in *.
  set (m := ({[ K := v2 ]} : configMap)) in *.
  rewrite (override_pipeline r rt _ d m Hex (map_non_empty_singleton _ _)).
  destruct (mergePass_inv r rt (pre ++ s :: post) m Hv Hlen)
    as [counts [_ Hm Ho]].
  simpl in Hm, Ho.
  assert (Hsec : ∀ key, entryKey key = EmptyString → m !! key ≠ Some EmptyString).
  { intros key Hkey Hl. apply lookup_singleton_Some in Hl as [<- Hv2].
    simpl in Hkey. tauto. }
  assert (Hcons : consumed (pre ++ s :: post) m K).
  { split; simpl.
    - pose proof (occurrence_bounds pre (name s)).
      pose proof (occurrence_app_le (pre ++ [s]) post (name s)) as Hle.
      rewrite <- app_assoc in Hle. simpl in Hle.
      rewrite occurrence_snoc, decide_True in Hle by done. lia.
    - intros Hd. by apply Hsec in Hd. }
  assert (Hm' : (mergePass r rt (pre ++ s :: post) m).2 = ∅).
  { apply map_empty. intros k'. rewrite Hm.
    destruct (decide (k' = K)) as [->|Hne].
    - by rewrite decide_True.
    - unfold m. rewrite lookup_singleton_ne by done. by case_decide. }
  rewrite Hm', appended_empty, app_nil_r by done. f_equal.
  unfold kept in Ho. rewrite filter_all in Ho.
  2:{ intros [j s0] _. simpl. by apply Hsec. }
  rewrite occurrences_from_app in Ho. simpl in Ho.
  apply Forall2_app_inv_l in Ho as (o1 & o23 & Ho1 & Ho23 & ->).
  apply Forall2_cons_inv_l in Ho23 as (o2 & o3 & Ho2 & Ho3 & ->).
  assert (Hother : ∀ j s0 k', (name s0, j) ≠ (name s, occurrence pre (name s)) →
                              same_section (sectionAddress s0 j) k' → m !! k' = None).
  { intros j s0 k' Hne [Hn Hi]. apply lookup_singleton_None. intros <-.
    simpl in Hn, Hi. apply Hne. by rewrite <- Hn, <- Hi. }
  apply Forall2_merged_untouched in Ho1.
  2:{ intros j s0 k' Hin. apply Hother. intros Heq. injection Heq as Hn Hj.
      apply occurrences_from_bounds in Hin. simpl in Hin. rewrite Hn in Hin. lia. }
  apply Forall2_merged_untouched in Ho3.
  2:{ intros j s0 k' Hin. apply Hother. intros Heq. injection Heq as Hn Hj.
      apply occurrences_from_bounds in Hin. rewrite Hn in Hin.
      rewrite occurrence_snoc, decide_True in Hin by done. lia. }
  rewrite occurrences_from_snd in Ho1, Ho3. subst o1 o3. simpl. do 2 f_equal.
  destruct Ho2 as (Hn & Hc & news & Hes & Hp). simpl in *.
  unfold leftover in Hp. rewrite He in Hes, Hp.
  unfold m, K, sectionAddress in Hes, Hp.
  change (RawConfigKey (name s) (occurrence pre (name s)) k)
    with (RawConfigKey
            (sectionName (RawConfigKey (name s) (occurrence pre (name s)) EmptyString))
            (index (RawConfigKey (name s) (occurrence pre (name s)) EmptyString)) k)
    in Hes, Hp.
  rewrite updateEntries_single in Hes, Hp by done. simpl in Hes, Hp.
  rewrite map_filter_empty, map_to_list_empty in Hp. simpl in Hp.
  apply Permutation_nil_r in Hp. subst news. rewrite app_nil_r in Hes.
  destruct o2; simpl in *. by subst.
Qed.

(** ** New sections of one name *)


(** ** The split revision appends the left-over entries in key order *)

Lemma same_section_key_order sk a b :
  same_section sk a → same_section sk b → a ≠ b →
  settled keyBelow a b →
  String.ltb (entryKey a) (entryKey b) = true.
Proof.
  intros [Han Hai] [Hbn Hbi] Hne Hs.
  destruct (String.ltb (entryKey a) (entryKey b)) eqn:Hlt; [done|exfalso].
  apply ltb_false_le in Hlt.
  assert (Hba : keyBelow b a).
  { unfold keyBelow. rewrite Han, Hbn, Hai, Hbi. split; [done|]. split; [lia|done]. }
  destruct (Hs Hba) as (_ & _ & Hab).
  apply Hne. rewrite (same_section_eq sk a), (same_section_eq sk b) by done.
  f_equal. by apply (anti_symm String.le).
Qed.

Lemma split_new_entries_sorted rt es sk (m : configMap) :
  oracle_ok rt →
  (size m <= 12)%nat →
  ∃ news,
    (Split.appendEntries rt es sk m).1 = es ++ news
    ∧ StronglySorted (fun a b => String.ltb (key a) (key b) = true) news
    ∧ news ≡ₚ entryOf <$> map_to_list
                            (filter (fun kv => same_section sk kv.1) m).
Proof.
  intros Hv H12. unfold Split.appendEntries.
  pose proof (split_sortedConfigKeys_perm rt Hv m) as Hperm.
  assert (Hnd : NoDup (Split.sortedConfigKeys rt m)).
  { rewrite Hperm. apply NoDup_fst_map_to_list. }
  destruct (split_appendEntries_fold sk _ es m Hnd) as [H1 _].
  cbv zeta in H1. eexists. split; [exact H1|]. split.
  - apply (StronglySorted_fmap _
             (fun a b => (settled keyBelow a b
                          ∧ (same_section sk a ∧ same_section sk b)) ∧ a ≠ b)).
    + intros a b [[Hs [Ha Hb]] Hne]. simpl. by apply (same_section_key_order sk).
    + apply StronglySorted_and; [apply StronglySorted_and|].
      * apply StronglySorted_filter. unfold Split.sortedConfigKeys.
        apply (sort_Slice_settled Split.keyLess keyBelow).
        -- apply keyBelow_trans.
        -- apply split_keyLess_spec.
        -- rewrite foldl_snoc_fmap, app_nil_l, length_fmap.
           rewrite (Permutation_length (visit_perm rt Hv _ _)).
           by rewrite length_map_to_list.
      * apply StronglySorted_Forall, Forall_forall.
        intros k Hk. by apply list_elem_of_filter in Hk as [? _].
      * apply NoDup_StronglySorted. by apply NoDup_filter.
  - rewrite Hperm. rewrite (entryOf_keys_values m (same_section sk)).
    + by rewrite filter_map_to_list_perm.
    + intros [k v] Hkv. by apply elem_of_map_to_list.
Qed.

(** * The claims *)

(** C1, as the code has it. Overriding an entry address with the empty
    string does not remove the entry. Whatever else the dictionary
    overrides, when the addressed occurrence is not deleted its merged
    section has, at the position of the first entry of key [k], the entry
    [k] with the empty string as value, and every entry with no override is
    as before, at its position. When this is the one override the
    dictionary makes, the operation returns the list with that one value
    replaced, every other entry and section as before. This holds in both
    revisions and for every order in which the maps are ranged over. *)
Theorem entry_deletion_keeps_entry r rt pre s post (d : gmap string string)
    (m : configMap) k v pre_e post_e :
  oracle_ok rt →
  Z.of_nat (length (pre ++ s :: post)) < uint_modulus →
  entries s = pre_e ++ CfgEntry k v :: post_e →
  k ∉ key <$> pre_e →
  k ≠ EmptyString →
  extractKeys r rt d = Some m →
  m !! RawConfigKey (name s) (occurrence pre (name s)) k = Some EmptyString →
  (m !! sectionAddress s (occurrence pre (name s)) ≠ Some EmptyString →
   ∃ out_pre o out_post,
     override r rt (pre ++ s :: post) d = Some (out_pre ++ o :: out_post)
     ∧ Forall2 (merged m) (kept m (occurrences_from [] pre)) out_pre
     ∧ name o = name s ∧ comment o = comment s
     ∧ entries o !! length pre_e = Some (CfgEntry k EmptyString)
     ∧ (∀ j e,
          entries s !! j = Some e →
          m !! RawConfigKey (name s) (occurrence pre (name s)) (key e) = None →
          entries o !! j = Some e))
  ∧ (m = {[ RawConfigKey (name s) (occurrence pre (name s)) k := EmptyString ]} →
     override r rt (pre ++ s :: post) d
     = Some (pre ++ CfgSection (name s) (comment s)
                      (pre_e ++ CfgEntry k EmptyString :: post_e) :: post)).
Proof.
  intros Hv Hlen He Hk Hk0 Hex Hm. split.
  - intros Hkeep.
    assert (Hne : m ≠ ∅) by (intros ->; by rewrite lookup_empty in Hm).
    destruct (override_in_place r rt pre s post d m Hv Hlen Hex Hne Hkeep)
      as (out_pre & o & out_post & Hout & Hpre & Hn & Hc & Hov & Hfr).
    exists out_pre, o, out_post. repeat split; try done.
    by apply (Hov k v EmptyString pre_e post_e).
  - intros ->.
    apply (single_override r rt pre s post d k v EmptyString pre_e post_e); auto.
Qed.

Lemma entry_deletion_keeps_entry_witness :
  let s := CfgSection "global" "c"
             [CfgEntry "driver" "ICH9-LPC"; CfgEntry "value" "1"] in
  let d1 : gmap string string :=
    {[ "raw.qemu.config.global.value"%string := EmptyString ]} in
  let d2 : gmap string string :=
    {[ "raw.qemu.config.global.value"%string := EmptyString;
       "raw.qemu.config.global.driver"%string := "x"%string ]} in
  let m2 : configMap :=
    {[ RawConfigKey "global" 0 "value" := EmptyString;
       RawConfigKey "global" 0 "driver" := "x"%string ]} in
  override SplitRev forwards ([] ++ s :: []) d1
  = Some ([] ++ CfgSection "global" "c"
                  ([CfgEntry "driver" "ICH9-LPC"]
                     ++ CfgEntry "value" EmptyString :: []) :: [])
  ∧ ∃ out_pre o out_post,
      override InlineRev backwards ([] ++ s :: []) d2
      = Some (out_pre ++ o :: out_post)
      ∧ entries o !! 1%nat = Some (CfgEntry "value" EmptyString).
Proof.
  intros s d1 d2 m2. split.
  - apply (entry_deletion_keeps_entry SplitRev forwards [] s [] d1
             {[ RawConfigKey "global" 0 "value" := EmptyString ]}
             "value" "1" [CfgEntry "driver" "ICH9-LPC"] []).
    + exact forwards_ok.
    + vm_compute. reflexivity.
    + reflexivity.
    + simpl. intros H. inversion H as [|? ? ? H']; subst. inversion H'.
    + discriminate.
    + reflexivity.
    + reflexivity.
    + reflexivity.
  - destruct (entry_deletion_keeps_entry InlineRev backwards [] s [] d2 m2
                "value" "1" [CfgEntry "driver" "ICH9-LPC"] []) as [Hgen _].
    + exact backwards_ok.
    + vm_compute. reflexivity.
    + reflexivity.
    + simpl. intros H. inversion H as [|? ? ? H']; subst. inversion H'.
    + discriminate.
    + reflexivity.
    + reflexivity.
    + destruct Hgen as (out_pre & o & out_post & Hout & _ & _ & _ & Hval & _).
      * discriminate.
      * exists out_pre, o, out_post. split; [exact Hout|exact Hval].
Defined.

(** C1, as the spec states it, fails on its own scenario: from
    [{global: [value = 1]}] and raw.qemu.config.global.value set to the
    empty string, both revisions return the section with the entry still
    there, its value empty, and not the section with no entry. *)
Lemma entry_deletion_counterexample :
  let cfg := [CfgSection "global" EmptyString [CfgEntry "value" "1"]] in
  let d : gmap string string :=
    {[ "raw.qemu.config.global.value"%string := EmptyString ]} in
  let kept_entry :=
    Some [CfgSection "global" EmptyString [CfgEntry "value" EmptyString]] in
  override SplitRev forwards cfg d = kept_entry
  ∧ override InlineRev forwards cfg d = kept_entry
  ∧ override SplitRev forwards cfg d
    ≠ Some [CfgSection "global" EmptyString []]
  ∧ override InlineRev forwards cfg d
    ≠ Some [CfgSection "global" EmptyString []].
Proof. vm_compute. repeat split; discriminate. Qed.




Example example_indices_2_and_11 :
  Split.qemuRawCfgOverride backwards []
    {[ "raw.qemu.config.global[11].value"%string := "10"%string;
       "raw.qemu.config.global[2].value"%string := "1"%string ]}
  = Some [CfgSection "global" EmptyString [CfgEntry "value" "1"];
          CfgSection "global" EmptyString [CfgEntry "value" "10"]].
Proof. vm_compute. reflexivity. Qed.

(** driver_qemu_config_override.go reads one digit only: there the key
    of index 11 matches nothing and is passed over. *)
Example inline_single_digit_index :
  FindStringSubmatch OneDigit "raw.qemu.config.global[11].value" = None
  ∧ Inline.qemuRawCfgOverride backwards []
      {[ "raw.qemu.config.global[11].value"%string := "10"%string;
         "raw.qemu.config.global[2].value"%string := "1"%string ]}
    = Some [CfgSection "global" EmptyString [CfgEntry "value" "1"]].
Proof. vm_compute. split; reflexivity. Qed.

(** C3. The append pass does not sort the new sections by the
    lexicographic order on (name, index): its comparator holds as soon as
    the name or the index is smaller, so the new sections a[1] and b[0] are
    each less than the other, and the insertion sort leaves them in the
    reverse of the order in which the map of new sections was ranged over.
    From the empty list and the keys raw.qemu.config.a[1].x and
    raw.qemu.config.b.x, one order gives the section b before the section
    a, in both revisions; the lexicographic order puts a first. *)
Theorem new_sections_not_lexicographic :
  let d : gmap string string :=
    {[ "raw.qemu.config.a[1].x"%string := "1"%string;
       "raw.qemu.config.b.x"%string := "1"%string ]} in
  let b_then_a :=
    Some [CfgSection "b" EmptyString [CfgEntry "x" "1"];
          CfgSection "a" EmptyString [CfgEntry "x" "1"]] in
  Split.sectionLess (RawConfigKey "a" 1 EmptyString) (RawConfigKey "b" 0 EmptyString) = true
  ∧ Split.sectionLess (RawConfigKey "b" 0 EmptyString) (RawConfigKey "a" 1 EmptyString) = true
  ∧ override SplitRev forwards [] d = b_then_a
  ∧ override InlineRev forwards [] d = b_then_a.
Proof. vm_compute. repeat split. Qed.

(** C4. In driver_qemu_config_override.go the left-over entries of an
    occurrence are appended in the order in which the map is ranged over,
    with no sort: from [{global: []}] and the keys raw.qemu.config.global.a
    and raw.qemu.config.global.b, one order appends b before a. The split
    revision, which sorts the addresses first, appends a before b under the
    same order. *)
Theorem inline_new_entries_unsorted :
  let cfg := [CfgSection "global" EmptyString []] in
  let d : gmap string string :=
    {[ "raw.qemu.config.global.a"%string := "1"%string;
       "raw.qemu.config.global.b"%string := "2"%string ]} in
  override InlineRev backwards cfg d
  = Some [CfgSection "global" EmptyString [CfgEntry "b" "2"; CfgEntry "a" "1"]]
  ∧ override SplitRev backwards cfg d
    = Some [CfgSection "global" EmptyString [CfgEntry "a" "1"; CfgEntry "b" "2"]].
Proof. vm_compute. repeat split. Qed.

(** C5. The output depends on the order in which the maps are ranged
    over: from the empty list and the keys raw.qemu.config.a[1].x and
    raw.qemu.config.b.x, which normalize to two distinct addresses, two
    orders give the two new sections in opposite orders. *)
Theorem output_depends_on_range_order :
  let d : gmap string string :=
    {[ "raw.qemu.config.a[1].x"%string := "1"%string;
       "raw.qemu.config.b.x"%string := "1"%string ]} in
  let a := CfgSection "a" EmptyString [CfgEntry "x" "1"] in
  let b := CfgSection "b" EmptyString [CfgEntry "x" "1"] in
  oracle_ok forwards ∧ oracle_ok backwards
  ∧ override SplitRev forwards [] d = Some [b; a]
  ∧ override SplitRev backwards [] d = Some [a; b]
  ∧ override InlineRev forwards [] d = Some [b; a]
  ∧ override InlineRev backwards [] d = Some [a; b].
Proof.
  split; [exact forwards_ok|]. split; [exact backwards_ok|].
  vm_compute. repeat split.
Qed.

(** C6. Section deletion: when the override map gives the empty string
    to the section-level address of occurrence [occurrence pre (name s)]
    of the name of [s], the output is made of the kept sections left of [s]
    merged with the map, then the kept sections right of [s] merged with
    the map, then the sections of the append pass: [s] gives no section.
    The sections right of [s] are merged under the repeat index they have
    in the original list, [s] counted: deleting does not renumber. This
    holds in both revisions and for every order in which the maps are
    ranged over. *)
Theorem section_deletion r rt pre s post (d : gmap string string) (m : configMap) :
  oracle_ok rt →
  Z.of_nat (length (pre ++ s :: post)) < uint_modulus →
  extractKeys r rt d = Some m →
  m !! sectionAddress s (occurrence pre (name s)) = Some EmptyString →
  ∃ out_pre out_post,
    override r rt (pre ++ s :: post) d
    = Some (out_pre ++ out_post
              ++ appended r rt (mergePass r rt (pre ++ s :: post) m).2)
    ∧ Forall2 (merged m) (kept m (occurrences_from [] pre)) out_pre
    ∧ Forall2 (merged m) (kept m (occurrences_from (pre ++ [s]) post)) out_post.
Proof.
  intros Hv Hlen Hex Hdel.
  assert (Hne : m ≠ ∅).
  { intros ->. by rewrite lookup_empty in Hdel. }
  rewrite (override_pipeline r rt _ d m Hex Hne).
  destruct (mergePass_inv r rt (pre ++ s :: post) m Hv Hlen)
    as [counts [_ _ Ho]].
  simpl in Ho.
  rewrite occurrences_from_app in Ho. simpl in Ho.
  rewrite kept_app in Ho. unfold kept at 2 in Ho.
  rewrite filter_cons_False in Ho by (simpl; by intros []).
  apply Forall2_app_inv_l in Ho as (o1 & o2 & Ho1 & Ho2 & Heq).
  exists o1, o2. rewrite Heq, <- app_assoc. done.
Qed.

Lemma section_deletion_witness :
  let pre := [CfgSection "global" "first" [CfgEntry "value" "1"]] in
  let s := CfgSection "global" "second" [CfgEntry "value" "2"] in
  let post := [CfgSection "global" "third" [CfgEntry "value" "3"]] in
  let d : gmap string string :=
    {[ "raw.qemu.config.global[1]"%string := EmptyString;
       "raw.qemu.config.global[2].value"%string := "30"%string ]} in
  let m : configMap :=
    {[ RawConfigKey "global" 1 EmptyString := EmptyString;
       RawConfigKey "global" 2 "value" := "30"%string ]} in
  ∃ out_pre out_post,
    override SplitRev forwards (pre ++ s :: post) d
    = Some (out_pre ++ out_post
              ++ appended SplitRev forwards
                   (mergePass SplitRev forwards (pre ++ s :: post) m).2)
    ∧ Forall2 (merged m) (kept m (occurrences_from [] pre)) out_pre
    ∧ Forall2 (merged m) (kept m (occurrences_from (pre ++ [s]) post)) out_post.
Proof.
  intros pre s post d m.
  apply (section_deletion SplitRev forwards pre s post d m).
  - exact forwards_ok.
  - vm_compute. reflexivity.
  - reflexivity.
  - reflexivity.
Defined.

Example example_second_global_deleted :
  override SplitRev forwards
    [CfgSection "global" "first" [CfgEntry "value" "1"];
     CfgSection "global" "second" [CfgEntry "value" "2"];
     CfgSection "global" "third" [CfgEntry "value" "3"]]
    {[ "raw.qemu.config.global[1]"%string := EmptyString;
       "raw.qemu.config.global[2].value"%string := "30"%string ]}
  = Some [CfgSection "global" "first" [CfgEntry "value" "1"];
          CfgSection "global" "third" [CfgEntry "value" "30"]].
Proof. vm_compute. reflexivity. Qed.

(** C7. Override precedence: the section list holds, as occurrence
    [occurrence pre (name s)] of the name of [s], a section whose first
    entry of key [k] has value [v], and the dictionary gives that address a
    non-empty value [v2]. Whatever else the dictionary overrides, when the
    occurrence is not deleted its merged section has the entry [k] with
    value [v2] at the position of that entry, and every entry with no
    override is as before, at its position. When this is the one override
    the dictionary makes, the operation returns the list with [v2] in place
    of [v]: every other entry, every section and every position is as
    before. Nothing asks [v2] to differ from [v]. This holds in both
    revisions and for every order in which the maps are ranged over. *)
Theorem override_precedence r rt pre s post (d : gmap string string)
    (m : configMap) k v v2 pre_e post_e :
  oracle_ok rt →
  Z.of_nat (length (pre ++ s :: post)) < uint_modulus →
  entries s = pre_e ++ CfgEntry k v :: post_e →
  k ∉ key <$> pre_e →
  v2 ≠ EmptyString →
  extractKeys r rt d = Some m →
  m !! RawConfigKey (name s) (occurrence pre (name s)) k = Some v2 →
  (m !! sectionAddress s (occurrence pre (name s)) ≠ Some EmptyString →
   ∃ out_pre o out_post,
     override r rt (pre ++ s :: post) d = Some (out_pre ++ o :: out_post)
     ∧ Forall2 (merged m) (kept m (occurrences_from [] pre)) out_pre
     ∧ name o = name s ∧ comment o = comment s
     ∧ entries o !! length pre_e = Some (CfgEntry k v2)
     ∧ (∀ j e,
          entries s !! j = Some e →
          m !! RawConfigKey (name s) (occurrence pre (name s)) (key e) = None →
          entries o !! j = Some e))
  ∧ (m = {[ RawConfigKey (name s) (occurrence pre (name s)) k := v2 ]} →
     override r rt (pre ++ s :: post) d
     = Some (pre ++ CfgSection (name s) (comment s)
                      (pre_e ++ CfgEntry k v2 :: post_e) :: post)).
Proof.
  intros Hv Hlen He Hk Hv2 Hex Hm. split.
  - intros Hkeep.
    assert (Hne : m ≠ ∅) by (intros ->; by rewrite lookup_empty in Hm).
    destruct (override_in_place r rt pre s post d m Hv Hlen Hex Hne Hkeep)
      as (out_pre & o & out_post & Hout & Hpre & Hn & Hc & Hov & Hfr).
    exists out_pre, o, out_post. repeat split; try done.
    by apply (Hov k v v2 pre_e post_e).
  - intros ->.
    apply (single_override r rt pre s post d k v v2 pre_e post_e); auto.
Qed.

Lemma override_precedence_witness :
  let pre := [CfgSection "global" "first" [CfgEntry "value" "7"]] in
  let s := CfgSection "global" "second"
             [CfgEntry "driver" "ICH9-LPC"; CfgEntry "value" "1";
              CfgEntry "value" "2"] in
  let post := [CfgSection "machine" "m" [CfgEntry "value" "3"]] in
  let d1 : gmap string string :=
    {[ "raw.qemu.config.global[1].value"%string := "0"%string;
       "user.value"%string := "9"%string ]} in
  let d2 : gmap string string :=
    {[ "raw.qemu.config.global[1].value"%string := "0"%string;
       "raw.qemu.config.global"%string := EmptyString ]} in
  let m2 : configMap :=
    {[ RawConfigKey "global" 1 "value" := "0"%string;
       RawConfigKey "global" 0 EmptyString := EmptyString ]} in
  override InlineRev backwards (pre ++ s :: post) d1
  = Some (pre ++ CfgSection "global" "second"
                   ([CfgEntry "driver" "ICH9-LPC"]
                      ++ CfgEntry "value" "0" :: [CfgEntry "value" "2"])
              :: post)
  ∧ ∃ out_pre o out_post,
      override SplitRev forwards (pre ++ s :: post) d2
      = Some (out_pre ++ o :: out_post)
      ∧ entries o !! 1%nat = Some (CfgEntry "value" "0")
      ∧ entries o !! 0%nat = Some (CfgEntry "driver" "ICH9-LPC").
Proof.
  intros pre s post d1 d2 m2. split.
  - apply (override_precedence InlineRev backwards pre s post d1
             {[ RawConfigKey "global" 1 "value" := "0"%string ]}
             "value" "1" "0" [CfgEntry "driver" "ICH9-LPC"]
             [CfgEntry "value" "2"]).
    + exact backwards_ok.
    + vm_compute. reflexivity.
    + reflexivity.
    + simpl. intros H. inversion H as [|? ? ? H']; subst. inversion H'.
    + discriminate.
    + reflexivity.
    + reflexivity.
    + reflexivity.
  - destruct (override_precedence SplitRev forwards pre s post d2 m2
                "value" "1" "0" [CfgEntry "driver" "ICH9-LPC"]
                [CfgEntry "value" "2"]) as [Hgen _].
    + exact forwards_ok.
    + vm_compute. reflexivity.
    + reflexivity.
    + simpl. intros H. inversion H as [|? ? ? H']; subst. inversion H'.
    + discriminate.
    + reflexivity.
    + reflexivity.
    + destruct Hgen as (out_pre & o & out_post & Hout & _ & _ & _ & Hval & Hfr).
      * discriminate.
      * exists out_pre, o, out_post. split; [exact Hout|]. split; [exact Hval|].
        apply (Hfr 0%nat); reflexivity.
Defined.

(** C8. Identity fast path: when no key of the dictionary matches the
    override-key grammar, as is the case of the empty dictionary, the
    operation returns the section list it was given, in either revision and
    whatever the order in which the dictionary is ranged over. *)
Theorem identity_fast_path r rt (cfg : list cfgSection) (d : gmap string string) :
  oracle_ok rt →
  (∀ k v, d !! k = Some v → FindStringSubmatch (digitsOf r) k = None) →
  override r rt cfg d = Some cfg.
Proof.
  intros Hv Hd.
  pose proof (extract_no_match r rt d Hv Hd) as Hex.
  destruct r; simpl in *.
  - unfold Split.qemuRawCfgOverride. rewrite Hex. simpl.
    by rewrite decide_True by apply map_size_empty.
  - unfold Inline.qemuRawCfgOverride. rewrite Hex. simpl.
    by rewrite decide_True by apply map_size_empty.
Qed.

Lemma identity_fast_path_witness :
  override SplitRev forwards
    [CfgSection "global" "c" [CfgEntry "value" "1"]]
    {[ "user.comment"%string := "raw.qemu.config.global.value"%string ]}
  = Some [CfgSection "global" "c" [CfgEntry "value" "1"]]
  ∧ override InlineRev backwards [CfgSection "global" "c" []] ∅
    = Some [CfgSection "global" "c" []].
Proof.
  split.
  - apply identity_fast_path; [exact forwards_ok|].
    intros k v Hkv. apply lookup_singleton_Some in Hkv as [<- _]. reflexivity.
  - apply identity_fast_path; [exact backwards_ok|].
    intros k v Hkv. rewrite lookup_empty in Hkv. discriminate.
Defined.

(** C9. A section-level address with a non-empty value is not without
    effect on an occurrence that exists: the loop that appends the
    left-over entries takes every address of the occurrence, the
    section-level one too, and appends an entry with the empty key and that
    value. From [{global: [value = 1]}] and raw.qemu.config.global set to
    x, both revisions return the section with a second entry. *)
Theorem bare_value_appends_entry :
  let cfg := [CfgSection "global" EmptyString [CfgEntry "value" "1"]] in
  let d : gmap string string := {[ "raw.qemu.config.global"%string := "x"%string ]} in
  let changed :=
    Some [CfgSection "global" EmptyString
            [CfgEntry "value" "1"; CfgEntry EmptyString "x"]] in
  override SplitRev forwards cfg d = changed
  ∧ override InlineRev forwards cfg d = changed
  ∧ changed ≠ Some cfg.
Proof. vm_compute. repeat split. discriminate. Qed.

(** C10. When the override map deletes the occurrence [i] of [S] and also
    gives a value to an entry [k] of that occurrence, the entry override is
    not dropped with the section: it is still in the map after the merge
    pass, and the append pass adds, after all the merged sections, a
    section named [S] with an empty comment that holds the entry. This
    holds in both revisions and for every order in which the maps are
    ranged over. *)
Theorem deleted_section_entries_reappear r rt cfg (d : gmap string string)
    (m : configMap) S i k v :
  oracle_ok rt →
  Z.of_nat (length cfg) < uint_modulus →
  extractKeys r rt d = Some m →
  m !! RawConfigKey S i EmptyString = Some EmptyString →
  k ≠ EmptyString →
  m !! RawConfigKey S i k = Some v →
  (mergePass r rt cfg m).2 !! RawConfigKey S i k = Some v
  ∧ ∃ news sec,
      override r rt cfg d = Some ((mergePass r rt cfg m).1 ++ news)
      ∧ sec ∈ news
      ∧ name sec = S ∧ comment sec = EmptyString ∧ CfgEntry k v ∈ entries sec.
Proof.
  intros Hv Hlen Hex Hdel Hk Hkv.
  assert (Hne : m ≠ ∅).
  { intros ->. by rewrite lookup_empty in Hdel. }
  destruct (mergePass_inv r rt cfg m Hv Hlen) as [counts [_ Hm _]].
  simpl in Hm.
  assert (Hleft : (mergePass r rt cfg m).2 !! RawConfigKey S i k = Some v).
  { rewrite Hm, decide_False; [done|]. intros [_ Hc]. simpl in Hc. tauto. }
  split; [done|].
  destruct (appended_holds r rt _ _ v Hv Hleft Hk) as (sec & Hin & Hn & Hc & He).
  exists (appended r rt (mergePass r rt cfg m).2), sec.
  split; [|done]. by apply override_pipeline.
Qed.

Lemma deleted_section_entries_reappear_witness :
  let cfg := [CfgSection "global" "first" [CfgEntry "value" "1"];
              CfgSection "machine" "m" [CfgEntry "type" "q35"]] in
  let d : gmap string string :=
    {[ "raw.qemu.config.global"%string := EmptyString;
       "raw.qemu.config.global.value"%string := "5"%string ]} in
  let m : configMap :=
    {[ RawConfigKey "global" 0 EmptyString := EmptyString;
       RawConfigKey "global" 0 "value" := "5"%string ]} in
  (mergePass InlineRev backwards cfg m).2 !! RawConfigKey "global" 0 "value"
  = Some "5"%string
  ∧ ∃ news sec,
      override InlineRev backwards cfg d
      = Some ((mergePass InlineRev backwards cfg m).1 ++ news)
      ∧ sec ∈ news
      ∧ name sec = "global"%string ∧ comment sec = EmptyString
      ∧ CfgEntry "value" "5" ∈ entries sec.
Proof.
  intros cfg d m.
  apply (deleted_section_entries_reappear InlineRev backwards cfg d m).
  - exact backwards_ok.
  - vm_compute. reflexivity.
  - reflexivity.
  - reflexivity.
  - discriminate.
  - reflexivity.
Defined.

Example example_deleted_global_reappears :
  override SplitRev forwards
    [CfgSection "global" "first" [CfgEntry "value" "1"];
     CfgSection "machine" "m" [CfgEntry "type" "q35"]]
    {[ "raw.qemu.config.global"%string := EmptyString;
       "raw.qemu.config.global.value"%string := "5"%string ]}
  = Some [CfgSection "machine" "m" [CfgEntry "type" "q35"];
          CfgSection "global" EmptyString [CfgEntry "value" "5"]].
Proof. vm_compute. reflexivity. Qed.

(** * Further properties of the code *)

(** ** The pattern *)

Lemma nat_of_ascii_eqb c n :
  (n < 256)%nat → (nat_of_ascii c =? n)%nat = true → c = ascii_of_nat n.
Proof.
  intros _ H. apply Nat.eqb_eq in H. rewrite <- H. symmetry.
  apply ascii_nat_embedding.
Qed.

Lemma strip_prefix_Some p s r : strip_prefix p s = Some r → s = p +:+ r.
Proof.
  revert s. induction p as [|a p IH]; intros s H; simpl in H.
  - by injection H as ->.
  - destruct s as [|b s]; [done|].
    destruct (Ascii.eqb a b) eqn:Hab; [|done].
    apply Ascii.eqb_eq in Hab as ->. rewrite append_cons. f_equal. by apply IH.
Qed.

Lemma span_spec (p : ascii → bool) s a b :
  span p s = (a, b) →
  s = a +:+ b ∧ forallb_string p a = true
  ∧ match b with EmptyString => True | String c _ => p c = false end.
Proof.
  revert a b. induction s as [|c s IH]; intros a b H; simpl in H.
  - by injection H as <- <-.
  - destruct (p c) eqn:Hc.
    + destruct (span p s) as [a' b'] eqn:Hs. injection H as <- <-.
      destruct (IH a' b' eq_refl) as (-> & Ha & Hb).
      rewrite append_cons. simpl. by rewrite Hc, Ha.
    + injection H as <- <-. by rewrite Hc.
Qed.

Lemma span_all (p : ascii → bool) a :
  forallb_string p a = true → span p a = (a, EmptyString).
Proof.
  induction a as [|c a IH]; intros H; simpl in *; [done|].
  apply andb_true_iff in H as [Hc Ha]. by rewrite Hc, IH.
Qed.

Lemma append_nil_r (s : string) : s +:+ EmptyString = s.
Proof. induction s as [|c s IH]; [done|]. rewrite append_cons. by rewrite IH. Qed.

Lemma append_assoc' (a b c : string) : (a +:+ b) +:+ c = a +:+ (b +:+ c).
Proof. induction a as [|x a IH]; [done|]. rewrite !append_cons. by rewrite IH. Qed.

Lemma bracket_text (ds rest : string) :
  ds ≠ EmptyString →
  String "[" (ds +:+ String "]" rest)
  = (match ds with EmptyString => EmptyString | String _ _ => "[" +:+ ds +:+ "]" end)
    +:+ rest.
Proof.
  intros Hne. destruct ds as [|d ds]; [done|].
  change ("[" +:+ String d ds +:+ "]") with (String "[" (String d ds +:+ "]")).
  rewrite (append_cons "["). f_equal. by rewrite append_assoc'.
Qed.

Lemma match_entry_Some rest e :
  match_entry rest = Some e →
  rest = match e with EmptyString => EmptyString | String _ _ => "." +:+ e end
  ∧ forallb_string (fun x => negb (is_newline x)) e = true.
Proof.
  unfold match_entry. destruct rest as [|c e']; [by intros [= <-]|].
  destruct (nat_of_ascii c =? 46)%nat eqn:Hc; [|done].
  apply nat_of_ascii_eqb in Hc as ->; [|lia].
  destruct e' as [|x e']; [done|].
  destruct (forallb_string _ (String x e')) eqn:Hn; [|done].
  by intros [= <-].
Qed.

Lemma digits_ok_spec kind ds :
  digits_ok kind ds = true
  ↔ ds ≠ EmptyString ∧ (kind = OneDigit → (String.length ds <= 1)%nat).
Proof.
  destruct kind, ds as [|c [|c' ds]]; simpl; split; try done.
  - by intros [? _].
  - by intros [? _].
  - intros [_ H]. specialize (H eq_refl). lia.
Qed.

Lemma FindStringSubmatch_spec kind rawKey sec ds e :
  FindStringSubmatch kind rawKey = Some (sec, ds, e)
  ↔ rawKey = keyText sec ds e ∧ groups_ok kind sec ds e.
Proof.
  split.
  - unfold FindStringSubmatch, keyText, groups_ok.
    destruct (strip_prefix _ rawKey) as [rest|] eqn:Hp; [|done].
    apply strip_prefix_Some in Hp as ->.
    destruct (span is_section_char rest) as [sec0 rest1] eqn:Hs.
    apply span_spec in Hs as (-> & Hsec & Hhd).
    destruct sec0 as [|c0 sec0]; [done|].
    destruct rest1 as [|c rest2].
    { intros [= <- <- <-]. rewrite !append_nil_r.
      repeat split; simpl; (done || lia). }
    destruct (nat_of_ascii c =? 91)%nat eqn:Hc.
    + apply nat_of_ascii_eqb in Hc as ->; [|lia].
      destruct (span is_digit rest2) as [ds0 rest3] eqn:Hd.
      apply span_spec in Hd as (-> & Hds & _).
      destruct (digits_ok kind ds0) eqn:Hok; [|done].
      apply digits_ok_spec in Hok as [Hne Hone].
      destruct rest3 as [|d rest4]; [done|].
      destruct (nat_of_ascii d =? 93)%nat eqn:Hd93; [|done].
      apply nat_of_ascii_eqb in Hd93 as ->; [|lia].
      destruct (match_entry rest4) as [e0|] eqn:He; [|done].
      apply match_entry_Some in He as [-> Hnl].
      intros [= <- <- <-]. split; [|repeat split; done].
      change (ascii_of_nat 91) with "["%char.
      change (ascii_of_nat 93) with "]"%char.
      by rewrite (bracket_text ds0 _ Hne).
    + destruct (match_entry (String c rest2)) as [e0|] eqn:He; [|done].
      apply match_entry_Some in He as [Hrest Hnl].
      intros [= <- <- <-]. rewrite Hrest.
      repeat split; simpl; (done || lia).
  - intros [-> (Hsec & Hsecc & Hds & Hone & Hnl)].
    unfold FindStringSubmatch, keyText. rewrite strip_prefix_append.
    assert (He : ∀ e0 : string,
               forallb_string (fun x => negb (is_newline x)) e0 = true →
               match_entry (match e0 with
                            | EmptyString => EmptyString
                            | String _ _ => "." +:+ e0
                            end) = Some e0).
    { intros [|x e0] H0; [done|]. unfold match_entry.
      change ("." +:+ String x e0) with (String "." (String x e0)).
      change (nat_of_ascii "." =? 46)%nat with true. cbv iota. by rewrite H0. }
    destruct (decide (ds = EmptyString)) as [->|Hne].
    + change (EmptyString +:+ ?x) with x.
      destruct e as [|x e0].
      * rewrite append_nil_r, span_all by done. by destruct sec.
      * change ("." +:+ String x e0) with (String "." (String x e0)).
        rewrite span_append by done. destruct sec as [|c0 sec0]; [done|].
        change (nat_of_ascii "." =? 91)%nat with false. cbv iota.
        pose proof (He (String x e0) Hnl) as He'.
        change (match_entry (String "." (String x e0)) = Some (String x e0)) in He'.
        by rewrite He'.
    + rewrite <- (bracket_text ds _ Hne).
      rewrite span_append by done. destruct sec as [|c0 sec0]; [done|].
      change (nat_of_ascii "[" =? 91)%nat with true. cbv iota.
      rewrite span_append by done.
      assert (Hok : digits_ok kind ds = true).
      { apply digits_ok_spec. by split. }
      rewrite Hok. change (nat_of_ascii "]" =? 93)%nat with true. cbv iota.
      by rewrite (He e Hnl).
Qed.

(** X1. The pattern and the text of a key are inverse to each other: a
    key matches with the groups [sec], [ds] and [e] exactly when it is the
    prefix followed by [sec], by [ds] in brackets when [ds] is not empty and
    by a dot and [e] when [e] is not empty, the section being a non-empty
    run free of dots and opening brackets, [ds] digits (a single one in
    driver_qemu_config_override.go) and [e] free of newlines. *)
Theorem pattern_inverts_keyText kind rawKey sec ds e :
  FindStringSubmatch kind rawKey = Some (sec, ds, e)
  ↔ rawKey = keyText sec ds e ∧ groups_ok kind sec ds e.
Proof. apply FindStringSubmatch_spec. Qed.

(** ** Extraction *)

Lemma groups_of kind k g :
  FindStringSubmatch kind k = Some g →
  k = keyText g.1.1 g.1.2 g.2 ∧ groups_ok kind g.1.1 g.1.2 g.2.
Proof. destruct g as [[sec ds] e]. apply FindStringSubmatch_spec. Qed.

Lemma one_digit_value ds :
  forallb_string is_digit ds = true → (String.length ds <= 1)%nat →
  0 <= decimal_value 0 ds <= 9.
Proof.
  destruct ds as [|c [|c' ds]]; simpl; intros Hd Hl; [lia| |lia].
  rewrite andb_true_r in Hd. unfold is_digit in Hd.
  apply andb_true_iff in Hd as [Hlo Hhi].
  apply Nat.leb_le in Hlo, Hhi. lia.
Qed.

Lemma split_extract_as rt d :
  Split.extractRawConfigKeys rt d
  = extract_from OneOrMoreDigits maxInt (Some ∅) (visit rt _ (map_to_list d)).
Proof.
  unfold Split.extractRawConfigKeys, extract_from.
  generalize (Some (∅ : configMap)).
  induction (visit rt _ (map_to_list d)) as [|[k v] l IH]; intros acc; [done|].
  simpl. rewrite <- IH. f_equal. destruct acc as [rv|]; [|done]. simpl.
  destruct (FindStringSubmatch OneOrMoreDigits k) as [[[m1 m2] m3]|] eqn:Hm;
    [|done].
  apply FindStringSubmatch_spec in Hm as [_ (_ & _ & Hds & _ & _)].
  unfold addressOf. simpl.
  destruct (decide (m2 = EmptyString)) as [->|Hne]; [done|].
  unfold Atoi. destruct (decimal_value 0 m2 <=? maxInt); [|done].
  pose proof (decimal_value_nonneg m2 0 Hds) as Hnn.
  destruct (decimal_value 0 m2 <? 0) eqn:Hneg; [|done].
  apply Z.ltb_lt in Hneg. lia.
Qed.

Lemma inline_extract_as rt d :
  Inline.qemuExtractRawConfigKeys rt d
  = extract_from OneDigit 9 (Some ∅) (visit rt _ (map_to_list d)).
Proof.
  unfold Inline.qemuExtractRawConfigKeys, extract_from.
  generalize (Some (∅ : configMap)).
  induction (visit rt _ (map_to_list d)) as [|[k v] l IH]; intros acc; [done|].
  simpl. rewrite <- IH. f_equal. destruct acc as [rv|]; [|done]. simpl.
  destruct (FindStringSubmatch OneDigit k) as [[[m1 m2] m3]|] eqn:Hm; [|done].
  apply FindStringSubmatch_spec in Hm as [_ (_ & _ & Hds & Hone & _)].
  unfold addressOf. simpl.
  destruct (decide (m2 = EmptyString)) as [->|Hne]; [done|].
  pose proof (one_digit_value m2 Hds (Hone eq_refl)) as Hv.
  unfold Atoi, maxInt.
  rewrite (proj2 (Z.leb_le _ _)) by lia.
  rewrite (proj2 (Z.leb_le _ 9)) by lia.
  rewrite (proj2 (Z.ltb_ge _ _)) by lia.
  rewrite (proj2 (Z.ltb_ge _ _)) by lia. done.
Qed.

Lemma extractKeys_as r rt d :
  extractKeys r rt d
  = extract_from (digitsOf r) (indexLimit r) (Some ∅) (visit rt _ (map_to_list d)).
Proof. destruct r; [apply split_extract_as|apply inline_extract_as]. Qed.

Lemma extract_from_None kind limit l : extract_from kind limit None l = None.
Proof. unfold extract_from. by induction l. Qed.

Lemma extract_from_cons kind limit rv kv l :
  extract_from kind limit (Some rv) (kv :: l)
  = match FindStringSubmatch kind kv.1 with
    | None => extract_from kind limit (Some rv) l
    | Some g =>
        if decimal_value 0 g.1.2 <=? limit
        then extract_from kind limit (Some (<[addressOf g := kv.2]> rv)) l
        else None
    end.
Proof.
  unfold extract_from at 1. simpl. fold (extract_from kind limit).
  destruct (FindStringSubmatch kind kv.1) as [g|]; [|done].
  destruct (_ <=? _); [done|apply extract_from_None].
Qed.

Lemma extract_from_aborts kind limit rv l :
  extract_from kind limit (Some rv) l = None
  ↔ ∃ kv g, kv ∈ l ∧ FindStringSubmatch kind kv.1 = Some g
            ∧ limit < decimal_value 0 g.1.2.
Proof.
  revert rv. induction l as [|kv l IH]; intros rv.
  - split; [done|]. intros (kv & g & Hin & _). by apply elem_of_nil in Hin.
  - rewrite extract_from_cons.
    destruct (FindStringSubmatch kind kv.1) as [g|] eqn:Hm.
    + destruct (decimal_value 0 g.1.2 <=? limit) eqn:Hl.
      * apply Z.leb_le in Hl. rewrite IH. split.
        -- intros (kv' & g' & Hin & Hm' & Hbig). exists kv', g'.
           split; [by right|done].
        -- intros (kv' & g' & Hin & Hm' & Hbig).
           apply elem_of_cons in Hin as [->|Hin].
           ++ rewrite Hm in Hm'. injection Hm' as <-. lia.
           ++ by exists kv', g'.
      * apply Z.leb_gt in Hl. split; [|done]. intros _. exists kv, g.
        split; [by left|done].
    + rewrite IH. split.
      * intros (kv' & g' & Hin & Hm' & Hbig). exists kv', g'.
        split; [by right|done].
      * intros (kv' & g' & Hin & Hm' & Hbig).
        apply elem_of_cons in Hin as [->|Hin]; [congruence|].
        by exists kv', g'.
Qed.

Lemma extract_from_lookup kind limit rv l (m : configMap) K v :
  extract_from kind limit (Some rv) l = Some m →
  m !! K = Some v →
  rv !! K = Some v
  ∨ ∃ kv g, kv ∈ l ∧ kv.2 = v ∧ FindStringSubmatch kind kv.1 = Some g
            ∧ addressOf g = K ∧ decimal_value 0 g.1.2 <= limit.
Proof.
  revert rv. induction l as [|kv l IH]; intros rv.
  - intros [= <-] Hk. by left.
  - rewrite extract_from_cons. intros Hex Hk.
    destruct (FindStringSubmatch kind kv.1) as [g|] eqn:Hm.
    + destruct (decimal_value 0 g.1.2 <=? limit) eqn:Hl; [|done].
      apply Z.leb_le in Hl.
      destruct (IH _ Hex Hk) as [Hrv|(kv' & g' & Hin & Hrest)].
      * destruct (decide (addressOf g = K)) as [<-|Hne].
        -- rewrite lookup_insert_eq in Hrv. injection Hrv as <-.
           right. exists kv, g. split; [by left|done].
        -- rewrite lookup_insert_ne in Hrv by done. by left.
      * right. exists kv', g'. split; [by right|done].
    + destruct (IH _ Hex Hk) as [Hrv|(kv' & g' & Hin & Hrest)]; [by left|].
      right. exists kv', g'. split; [by right|done].
Qed.

Lemma extract_from_holds kind limit rv l (m : configMap) :
  extract_from kind limit (Some rv) l = Some m →
  (∀ K, is_Some (rv !! K) → is_Some (m !! K))
  ∧ (∀ kv g, kv ∈ l → FindStringSubmatch kind kv.1 = Some g →
             is_Some (m !! addressOf g)).
Proof.
  revert rv. induction l as [|kv l IH]; intros rv.
  - intros [= <-]. split; [done|]. intros kv g Hin. by apply elem_of_nil in Hin.
  - rewrite extract_from_cons. intros Hex.
    destruct (FindStringSubmatch kind kv.1) as [g|] eqn:Hm.
    + destruct (decimal_value 0 g.1.2 <=? limit) eqn:Hl; [|done].
      destruct (IH _ Hex) as [Hkeep Hall]. split.
      * intros K HK. apply Hkeep.
        destruct (decide (addressOf g = K)) as [<-|Hne].
        -- rewrite lookup_insert_eq. by eexists.
        -- by rewrite lookup_insert_ne.
      * intros kv' g' Hin Hm'. apply elem_of_cons in Hin as [->|Hin].
        -- rewrite Hm in Hm'. injection Hm' as <-. apply Hkeep.
           rewrite lookup_insert_eq. by eexists.
        -- by apply (Hall kv').
    + destruct (IH _ Hex) as [Hkeep Hall]. split; [done|].
      intros kv' g' Hin Hm'. apply elem_of_cons in Hin as [->|Hin]; [congruence|].
      by apply (Hall kv').
Qed.

Lemma extract_contents r rt (d : gmap string string) (m : configMap) :
  oracle_ok rt →
  extractKeys r rt d = Some m →
  (∀ K v, m !! K = Some v →
     ∃ k g, d !! k = Some v ∧ FindStringSubmatch (digitsOf r) k = Some g
            ∧ addressOf g = K)
  ∧ (∀ k v g, d !! k = Some v → FindStringSubmatch (digitsOf r) k = Some g →
       is_Some (m !! addressOf g)).
Proof.
  intros Hv. rewrite extractKeys_as. intros Hex. split.
  - intros K v HK.
    destruct (extract_from_lookup _ _ _ _ _ _ _ Hex HK)
      as [Hrv|([k v'] & g & Hin & Hv' & Hm & HK' & _)]; [done|].
    simpl in *. subst v'. exists k, g. split; [|done].
    by apply (visit_elem_of rt Hv) in Hin.
  - intros k v g Hd Hm.
    apply (proj2 (extract_from_holds _ _ _ _ _ Hex) (k, v) g); [|done].
    by apply (visit_elem_of rt Hv).
Qed.

Lemma visit_singleton rt {A} (x : A) : oracle_ok rt → visit rt A [x] = [x].
Proof.
  intros Hv. apply Permutation_singleton_r. by apply visit_perm.
Qed.

Lemma extract_singleton r rt sec ds e v :
  oracle_ok rt →
  groups_ok (digitsOf r) sec ds e →
  decimal_value 0 ds <= indexLimit r →
  extractKeys r rt {[ keyText sec ds e := v ]}
  = Some {[ RawConfigKey sec (decimal_value 0 ds) e := v ]}.
Proof.
  intros Hv Hg Hfit. rewrite extractKeys_as, map_to_list_singleton.
  rewrite visit_singleton by done. rewrite extract_from_cons. simpl.
  rewrite (proj2 (FindStringSubmatch_spec _ _ sec ds e)) by done. simpl.
  rewrite (proj2 (Z.leb_le _ _)) by done. done.
Qed.

Lemma append_inj_l (a b c : string) : a +:+ b = a +:+ c → b = c.
Proof.
  induction a as [|x a IH]; [done|]. rewrite !append_cons. intros [= H]. by apply IH.
Qed.

Lemma keyText_bare_ne_zero sec e : keyText sec EmptyString e ≠ keyText sec "0" e.
Proof.
  unfold keyText. intros H. do 2 apply append_inj_l in H.
  by destruct e.
Qed.

Lemma indexLimit_fits r : 0 <= indexLimit r <= maxInt.
Proof. destruct r; unfold indexLimit, maxInt; lia. Qed.

Lemma inline_extract_total rt (d : gmap string string) :
  is_Some (Inline.qemuExtractRawConfigKeys rt d).
Proof.
  rewrite inline_extract_as.
  destruct (extract_from OneDigit 9 (Some ∅) _) as [m|] eqn:Hex; [by eexists|].
  apply extract_from_aborts in Hex as ([k v] & g & _ & Hm & Hbig).
  apply groups_of in Hm as [_ (_ & _ & Hds & Hone & _)].
  pose proof (one_digit_value _ Hds (Hone eq_refl)). lia.
Qed.

(** X2. driver_qemu_config_override.go never panics: its pattern lets a
    single digit through, so [strconv.Atoi] cannot fail and the guard
    [i > 9 || i < 0] is never taken; the extraction returns a map and
    [qemuRawCfgOverride] returns a list, whatever the dictionary. *)
Theorem inline_never_panics rt cfg (d : gmap string string) :
  is_Some (Inline.qemuExtractRawConfigKeys rt d)
  ∧ is_Some (Inline.qemuRawCfgOverride rt cfg d).
Proof.
  pose proof (inline_extract_total rt d) as [m Hm]. split; [by eexists|].
  unfold Inline.qemuRawCfgOverride. rewrite Hm. simpl.
  destruct (decide (size m = 0%nat)); [by eexists|].
  destruct (foldl _ _ cfg) as [[newCfg counts] m']. by eexists.
Qed.

(** X3. The revision split into functions panics exactly when some key
    of the dictionary matches the pattern with bracketed digits whose
    value does not fit an [int]: then the extraction, and
    [qemuRawCfgOverride] with it, aborts; with any other dictionary both
    return. *)
Theorem split_panics_iff rt cfg (d : gmap string string) :
  oracle_ok rt →
  (Split.extractRawConfigKeys rt d = None
   ↔ ∃ k v sec ds e,
       d !! k = Some v
       ∧ FindStringSubmatch OneOrMoreDigits k = Some (sec, ds, e)
       ∧ maxInt < decimal_value 0 ds)
  ∧ (Split.qemuRawCfgOverride rt cfg d = None
     ↔ Split.extractRawConfigKeys rt d = None).
Proof.
  intros Hv. split.
  - rewrite split_extract_as, extract_from_aborts. split.
    + intros ([k v] & [[sec ds] e] & Hin & Hm & Hbig).
      exists k, v, sec, ds, e. split; [|done].
      by apply (visit_elem_of rt Hv) in Hin.
    + intros (k & v & sec & ds & e & Hd & Hm & Hbig).
      exists (k, v), (sec, ds, e). split; [|done]. by apply (visit_elem_of rt Hv).
  - unfold Split.qemuRawCfgOverride.
    destruct (Split.extractRawConfigKeys rt d) as [m|]; [|done]. simpl.
    destruct (decide (size m = 0%nat)); [done|].
    by destruct (Split.updateSections rt cfg m).
Qed.

Lemma split_panics_iff_witness :
  let cfg := [CfgSection "global" "first" [CfgEntry "driver" "a"]] in
  let d : gmap string string :=
    {[ "raw.qemu.config.global[99999999999999999999].x"%string := "1"%string ]} in
  (Split.extractRawConfigKeys forwards d = None
   ↔ ∃ k v sec ds e,
       d !! k = Some v
       ∧ FindStringSubmatch OneOrMoreDigits k = Some (sec, ds, e)
       ∧ maxInt < decimal_value 0 ds)
  ∧ (Split.qemuRawCfgOverride forwards cfg d = None
     ↔ Split.extractRawConfigKeys forwards d = None).
Proof.
  intros cfg d. apply (split_panics_iff forwards cfg d). exact forwards_ok.
Defined.

(** X4. What the extracted map holds: every address of the map is the
    normalized form of a matching key of the dictionary and carries the
    value of such a key, and every matching key of the dictionary has its
    address in the map; keys that do not match leave no trace. *)
Theorem extracted_map_contents r rt (d : gmap string string) (m : configMap) :
  oracle_ok rt →
  extractKeys r rt d = Some m →
  (∀ K v, m !! K = Some v →
     ∃ k g, d !! k = Some v ∧ FindStringSubmatch (digitsOf r) k = Some g
            ∧ addressOf g = K)
  ∧ (∀ k v g, d !! k = Some v → FindStringSubmatch (digitsOf r) k = Some g →
       is_Some (m !! addressOf g)).
Proof. apply extract_contents. Qed.

Lemma extracted_map_contents_witness :
  let d : gmap string string :=
    {[ "raw.qemu.config.global[1].driver"%string := "x"%string;
       "volatile.uuid"%string := "y"%string ]} in
  let m : configMap := {[ RawConfigKey "global" 1 "driver" := "x"%string ]} in
  (∀ K v, m !! K = Some v →
     ∃ k g, d !! k = Some v ∧ FindStringSubmatch OneOrMoreDigits k = Some g
            ∧ addressOf g = K)
  ∧ (∀ k v g, d !! k = Some v → FindStringSubmatch OneOrMoreDigits k = Some g →
       is_Some (m !! addressOf g)).
Proof.
  intros d m. apply (extracted_map_contents SplitRev forwards d m).
  - exact forwards_ok.
  - reflexivity.
Defined.

(** X5. When no other key of the dictionary normalizes to the same
    address, a matching key hands its value to its address: the extracted
    map maps the address of the key to the value the dictionary gives the
    key. *)
Theorem lone_key_keeps_its_value r rt (d : gmap string string) (m : configMap)
    k v g :
  oracle_ok rt →
  extractKeys r rt d = Some m →
  d !! k = Some v →
  FindStringSubmatch (digitsOf r) k = Some g →
  (∀ k' g', is_Some (d !! k') → FindStringSubmatch (digitsOf r) k' = Some g' →
            addressOf g' = addressOf g → k' = k) →
  m !! addressOf g = Some v.
Proof.
  intros Hv Hex Hd Hm Hlone.
  destruct (extract_contents r rt d m Hv Hex) as [Hfrom Hall].
  destruct (Hall k v g Hd Hm) as [v' Hv'].
  destruct (Hfrom _ _ Hv') as (k' & g' & Hd' & Hm' & Ha).
  rewrite (Hlone k' g') in Hd' by (try done; by eexists).
  congruence.
Qed.

Lemma lone_key_keeps_its_value_witness :
  let d : gmap string string :=
    {[ "raw.qemu.config.global[1].driver"%string := "x"%string ]} in
  let m : configMap := {[ RawConfigKey "global" 1 "driver" := "x"%string ]} in
  m !! addressOf ("global"%string, "1"%string, "driver"%string) = Some "x"%string.
Proof.
  intros d m.
  apply (lone_key_keeps_its_value InlineRev backwards d m
           "raw.qemu.config.global[1].driver" "x"
           ("global"%string, "1"%string, "driver"%string)).
  - exact backwards_ok.
  - reflexivity.
  - reflexivity.
  - reflexivity.
  - intros k' g' [v' Hk'] _ _.
    apply lookup_singleton_Some in Hk' as [Hk' _]. by symmetry.
Defined.

(** X6. The addresses of an extracted map are well formed: the section
    name is not empty and holds no dot and no opening bracket, the entry
    name holds no newline, and the index lies between 0 and the largest
    [int] (between 0 and 9 in driver_qemu_config_override.go). *)
Theorem extracted_addresses_well_formed r rt (d : gmap string string)
    (m : configMap) K v :
  extractKeys r rt d = Some m →
  m !! K = Some v →
  sectionName K ≠ EmptyString
  ∧ forallb_string is_section_char (sectionName K) = true
  ∧ forallb_string (fun x => negb (is_newline x)) (entryKey K) = true
  ∧ 0 <= index K <= indexLimit r.
Proof.
  rewrite extractKeys_as. intros Hex HK.
  destruct (extract_from_lookup _ _ _ _ _ _ _ Hex HK)
    as [Hrv|(kv & g & _ & _ & Hm & <- & Hfit)]; [done|].
  apply groups_of in Hm as [_ (Hsec & Hsecc & Hds & _ & Hnl)].
  unfold addressOf. simpl. repeat split; try done.
  by apply decimal_value_nonneg.
Qed.

Lemma extracted_addresses_well_formed_witness :
  let d : gmap string string :=
    {[ "raw.qemu.config.global[1].driver"%string := "x"%string ]} in
  let K := RawConfigKey "global" 1 "driver" in
  sectionName K ≠ EmptyString
  ∧ forallb_string is_section_char (sectionName K) = true
  ∧ forallb_string (fun x => negb (is_newline x)) (entryKey K) = true
  ∧ 0 <= index K <= indexLimit SplitRev.
Proof.
  intros d K.
  apply (extracted_addresses_well_formed SplitRev forwards d {[ K := "x"%string ]} K "x").
  - reflexivity.
  - reflexivity.
Defined.

(** X7. A key without brackets addresses the first occurrence: the keys
    raw.qemu.config.S.e and raw.qemu.config.S[0].e are read to the same
    address, of index 0, in both revisions (so is raw.qemu.config.S, the
    address of the section itself, with raw.qemu.config.S[0]). *)
Theorem implicit_index_is_zero r rt sec e v :
  oracle_ok rt →
  groups_ok (digitsOf r) sec EmptyString e →
  extractKeys r rt {[ keyText sec EmptyString e := v ]}
  = Some {[ RawConfigKey sec 0 e := v ]}
  ∧ extractKeys r rt {[ keyText sec "0" e := v ]}
    = Some {[ RawConfigKey sec 0 e := v ]}.
Proof.
  intros Hv (Hsec & Hsecc & _ & _ & Hnl).
  pose proof (indexLimit_fits r) as Hl. split.
  - apply (extract_singleton r rt sec EmptyString e v Hv); [|simpl; lia].
    repeat split; simpl; (done || lia).
  - apply (extract_singleton r rt sec "0" e v Hv);
      [|change (0 <= indexLimit r); lia].
    repeat split; simpl; (done || lia).
Qed.

Lemma implicit_index_is_zero_witness :
  extractKeys InlineRev forwards {[ keyText "global" EmptyString "driver" := "x"%string ]}
  = Some {[ RawConfigKey "global" 0 "driver" := "x"%string ]}
  ∧ extractKeys InlineRev forwards {[ keyText "global" "0" "driver" := "x"%string ]}
    = Some {[ RawConfigKey "global" 0 "driver" := "x"%string ]}.
Proof.
  apply (implicit_index_is_zero InlineRev forwards "global" "driver" "x").
  - exact forwards_ok.
  - repeat split; simpl; (done || lia).
Defined.

(** X8. Two keys of one address race: when the dictionary holds both
    raw.qemu.config.S.e and raw.qemu.config.S[0].e, with two different
    values, the extracted map keeps the value of the key the range visits
    last, so that ranging over the dictionary in one order and in the
    reverse order gives two different maps. *)
Theorem colliding_keys_race r sec e v1 v2 :
  groups_ok (digitsOf r) sec EmptyString e →
  v1 ≠ v2 →
  let d : gmap string string :=
    {[ keyText sec EmptyString e := v1; keyText sec "0" e := v2 ]} in
  let A := RawConfigKey sec 0 e in
  (extractKeys r forwards d = Some {[ A := v1 ]}
   ∧ extractKeys r backwards d = Some {[ A := v2 ]})
  ∨ (extractKeys r forwards d = Some {[ A := v2 ]}
     ∧ extractKeys r backwards d = Some {[ A := v1 ]}).
Proof.
  intros (Hsec & Hsecc & _ & _ & Hnl) Hne d A.
  pose proof (indexLimit_fits r) as Hl.
  assert (Hg0 : FindStringSubmatch (digitsOf r) (keyText sec EmptyString e)
                = Some (sec, EmptyString, e)).
  { apply FindStringSubmatch_spec. repeat split; simpl; (done || lia). }
  assert (Hg1 : FindStringSubmatch (digitsOf r) (keyText sec "0" e)
                = Some (sec, "0"%string, e)).
  { apply FindStringSubmatch_spec. repeat split; simpl; (done || lia). }
  assert (Hrun : ∀ a b,
             extract_from (digitsOf r) (indexLimit r) (Some ∅)
               [(keyText sec EmptyString e, a); (keyText sec "0" e, b)]
             = Some {[ A := b ]}
             ∧ extract_from (digitsOf r) (indexLimit r) (Some ∅)
                 [(keyText sec "0" e, b); (keyText sec EmptyString e, a)]
               = Some {[ A := a ]}).
  { intros a b. rewrite !extract_from_cons. simpl. rewrite Hg0, Hg1. simpl.
    rewrite !(proj2 (Z.leb_le 0 _)) by lia.
    unfold addressOf. simpl. fold A.
    split; by rewrite insert_insert_eq. }
  assert (Hl2 : map_to_list d ≡ₚ
                [(keyText sec EmptyString e, v1); (keyText sec "0" e, v2)]).
  { unfold d. rewrite map_to_list_insert.
    - by rewrite map_to_list_singleton.
    - apply lookup_singleton_None. intros Heq. symmetry in Heq.
      by apply keyText_bare_ne_zero in Heq. }
  symmetry in Hl2. apply Permutation_length_2_inv in Hl2.
  rewrite !extractKeys_as. simpl visit.
  destruct (Hrun v1 v2) as [H12 H21].
  destruct Hl2 as [->| ->]; simpl rev; [right|left]; done.
Qed.

Lemma colliding_keys_race_witness :
  let d : gmap string string :=
    {[ keyText "global" EmptyString "driver" := "a"%string;
       keyText "global" "0" "driver" := "b"%string ]} in
  let A := RawConfigKey "global" 0 "driver" in
  (extractKeys SplitRev forwards d = Some {[ A := "a"%string ]}
   ∧ extractKeys SplitRev backwards d = Some {[ A := "b"%string ]})
  ∨ (extractKeys SplitRev forwards d = Some {[ A := "b"%string ]}
     ∧ extractKeys SplitRev backwards d = Some {[ A := "a"%string ]}).
Proof.
  apply (colliding_keys_race SplitRev "global" "driver" "a" "b").
  - repeat split; simpl; (done || lia).
  - discriminate.
Defined.

(** ** The sorted addresses *)

Lemma keyLess_same a b : Split.keyLess a b = Inline.keyLess a b.
Proof.
  unfold Split.keyLess, Inline.keyLess.
  destruct (String.ltb (sectionName a) (sectionName b)),
    (index a <? index b), (String.ltb (entryKey a) (entryKey b)); done.
Qed.

Lemma sift_ext {A} (less1 less2 : A → A → bool) x p :
  (∀ a b, less1 a b = less2 a b) → sift less1 x p = sift less2 x p.
Proof.
  intros Hext. induction p as [|y p IH]; [done|]. simpl.
  rewrite Hext, IH. done.
Qed.

Lemma sort_Slice_ext {A} rt (less1 less2 : A → A → bool) l :
  oracle_extensional rt →
  (∀ a b, less1 a b = less2 a b) →
  sort_Slice less1 rt l = sort_Slice less2 rt l.
Proof.
  intros Hrt Hext. unfold sort_Slice.
  destruct (length l <=? 12)%nat; [|by apply Hrt].
  unfold insertionSortLessFunc. f_equal.
  generalize (@nil A). induction l as [|x l IH]; intros acc; [done|].
  simpl. by rewrite (sift_ext less1 less2 x acc Hext), IH.
Qed.

Lemma sortedConfigKeys_same rt m :
  oracle_extensional rt →
  Split.sortedConfigKeys rt m = Inline.sortedConfigKeys rt m.
Proof.
  intros Hrt. unfold Split.sortedConfigKeys, Inline.sortedConfigKeys.
  apply sort_Slice_ext; [done|apply keyLess_same].
Qed.

Lemma forwards_extensional : oracle_extensional forwards.
Proof. by intros A less1 less2 l _. Qed.

Lemma backwards_extensional : oracle_extensional backwards.
Proof. by intros A less1 less2 l _. Qed.

Lemma sortedKeysOf_perm r rt m :
  oracle_ok rt → sortedKeysOf r rt m ≡ₚ (map_to_list m).*1.
Proof.
  intros Hv. destruct r;
    [by apply split_sortedConfigKeys_perm|by apply inline_sortedConfigKeys_perm].
Qed.

Lemma inline_keyLess_spec x y : Inline.keyLess x y = false ↔ keyBelow y x.
Proof. rewrite <- keyLess_same. apply split_keyLess_spec. Qed.

(** X9. [sortedConfigKeys] returns every address of the map once, in
    both revisions. Its comparator is no order, so the result need not be
    sorted lexicographically; what holds, for the maps of at most twelve
    addresses that [sort.Slice] sorts by insertion, is that an address
    never comes after a different one that is at or above it in all three
    of section name, index and entry name. *)
Theorem sortedConfigKeys_respects_dominance r rt (m : configMap) :
  oracle_ok rt →
  sortedKeysOf r rt m ≡ₚ (map_to_list m).*1
  ∧ ((size m <= 12)%nat →
     StronglySorted (settled keyBelow) (sortedKeysOf r rt m)).
Proof.
  intros Hv. split; [by apply sortedKeysOf_perm|].
  intros H12.
  assert (Hlen : (length (foldl (fun rv (kv : rawConfigKey * string) => rv ++ [kv.1]) []
                            (visit rt _ (map_to_list m))) <= 12)%nat).
  { rewrite foldl_snoc_fmap. simpl. rewrite length_fmap.
    rewrite (visit_perm rt Hv _ (map_to_list m)), length_map_to_list. done. }
  destruct r; simpl.
  - apply (sort_Slice_settled Split.keyLess keyBelow keyBelow_trans
             split_keyLess_spec); done.
  - apply (sort_Slice_settled Inline.keyLess keyBelow keyBelow_trans
             inline_keyLess_spec); done.
Qed.

Lemma sortedConfigKeys_respects_dominance_witness :
  let m : configMap :=
    {[ RawConfigKey "global" 0 "driver" := "a"%string;
       RawConfigKey "global" 1 "driver" := "b"%string ]} in
  sortedKeysOf SplitRev backwards m ≡ₚ (map_to_list m).*1
  ∧ ((size m <= 12)%nat →
     StronglySorted (settled keyBelow) (sortedKeysOf SplitRev backwards m)).
Proof.
  intros m. apply (sortedConfigKeys_respects_dominance SplitRev backwards m).
  exact backwards_ok.
Defined.

(** X10. The two revisions write the comparator of [sortedConfigKeys]
    with its last two comparisons swapped (index before entry name in one,
    entry name before index in the other); joined by [||], the two agree on
    every pair of addresses, so both revisions sort the addresses of a map
    into the same list, for a sort that sees its comparator through the
    results of the comparisons only. *)
Theorem sortedConfigKeys_same_in_both rt (m : configMap) :
  oracle_extensional rt →
  (∀ a b, Split.keyLess a b = Inline.keyLess a b)
  ∧ Split.sortedConfigKeys rt m = Inline.sortedConfigKeys rt m.
Proof.
  intros Hrt. split; [apply keyLess_same|by apply sortedConfigKeys_same].
Qed.

Lemma sortedConfigKeys_same_in_both_witness :
  let m : configMap :=
    {[ RawConfigKey "global" 0 "driver" := "a"%string;
       RawConfigKey "global" 1 "driver" := "b"%string ]} in
  (∀ a b, Split.keyLess a b = Inline.keyLess a b)
  ∧ Split.sortedConfigKeys forwards m = Inline.sortedConfigKeys forwards m.
Proof.
  intros m. apply (sortedConfigKeys_same_in_both forwards m).
  exact forwards_extensional.
Defined.

(** ** The two revisions read the same map *)

Lemma one_digit_match k g :
  FindStringSubmatch OneDigit k = Some g
  ↔ FindStringSubmatch OneOrMoreDigits k = Some g
    ∧ (String.length g.1.2 <= 1)%nat.
Proof.
  destruct g as [[sec ds] e]. rewrite !FindStringSubmatch_spec.
  unfold groups_ok. simpl. split.
  - intros (-> & Hsec & Hsecc & Hds & Hone & Hnl). by auto 10.
  - intros [(-> & Hsec & Hsecc & Hds & _ & Hnl) Hone]. by auto 10.
Qed.

Lemma extract_from_agree l acc :
  (∀ kv g, kv ∈ l → FindStringSubmatch OneOrMoreDigits kv.1 = Some g →
           (String.length g.1.2 <= 1)%nat) →
  extract_from OneOrMoreDigits maxInt acc l = extract_from OneDigit 9 acc l.
Proof.
  revert acc. induction l as [|kv l IH]; intros acc Hone; [done|].
  destruct acc as [rv|]; [|by rewrite !extract_from_None].
  rewrite !extract_from_cons.
  assert (Hl : ∀ kv' g, kv' ∈ l →
                 FindStringSubmatch OneOrMoreDigits kv'.1 = Some g →
                 (String.length g.1.2 <= 1)%nat).
  { intros kv' g Hin. apply Hone. by right. }
  destruct (FindStringSubmatch OneOrMoreDigits kv.1) as [g|] eqn:Hm.
  - pose proof (Hone kv g (list_elem_of_here _ _) Hm) as Hlen.
    rewrite (proj2 (one_digit_match kv.1 g)) by done.
    apply groups_of in Hm as [_ (_ & _ & Hds & _ & _)].
    pose proof (one_digit_value _ Hds Hlen) as Hv.
    rewrite (proj2 (Z.leb_le _ maxInt)) by (unfold maxInt; lia).
    rewrite (proj2 (Z.leb_le _ 9)) by lia. by apply IH.
  - destruct (FindStringSubmatch OneDigit kv.1) as [g|] eqn:Hm1.
    + apply one_digit_match in Hm1 as [Hm1 _]. congruence.
    + by apply IH.
Qed.

Lemma extraction_same rt (d : gmap string string) :
  oracle_ok rt →
  (∀ k v sec ds e, d !! k = Some v →
     FindStringSubmatch OneOrMoreDigits k = Some (sec, ds, e) →
     (String.length ds <= 1)%nat) →
  Split.extractRawConfigKeys rt d = Inline.qemuExtractRawConfigKeys rt d.
Proof.
  intros Hv Hone. rewrite split_extract_as, inline_extract_as.
  apply extract_from_agree. intros [k v] [[sec ds] e] Hin Hm.
  apply (Hone k v sec ds e); [|done]. by apply (visit_elem_of rt Hv) in Hin.
Qed.

(** X11. On a dictionary whose matching keys carry at most one digit
    between the brackets, the two revisions read the same map of
    addresses: they differ on the keys with an index of two digits or more
    only, which one revision accepts and the other does not match. *)
Theorem revisions_read_the_same_map rt (d : gmap string string) :
  oracle_ok rt →
  (∀ k v sec ds e, d !! k = Some v →
     FindStringSubmatch OneOrMoreDigits k = Some (sec, ds, e) →
     (String.length ds <= 1)%nat) →
  Split.extractRawConfigKeys rt d = Inline.qemuExtractRawConfigKeys rt d.
Proof. apply extraction_same. Qed.

Lemma revisions_read_the_same_map_witness :
  let d : gmap string string :=
    {[ "raw.qemu.config.global[1].driver"%string := "x"%string ]} in
  Split.extractRawConfigKeys forwards d = Inline.qemuExtractRawConfigKeys forwards d.
Proof.
  intros d. apply (revisions_read_the_same_map forwards d).
  - exact forwards_ok.
  - intros k v sec ds e Hk Hm.
    apply lookup_singleton_Some in Hk as [<- _].
    vm_compute in Hm. injection Hm as <- <- <-. simpl. lia.
Defined.

(** ** The entries of an occurrence *)

Lemma updateEntries_at es sk (m : configMap) j e :
  es !! j = Some e →
  (Split.updateEntries es sk m).1 !! j
  = Some (if decide (key e ∈ key <$> take j es) then e
          else match m !! entryAddress sk e with
               | Some v => CfgEntry (key e) v
               | None => e
               end).
Proof.
  intros Hj.
  pose proof (take_drop_middle es j e Hj) as Hsplit.
  assert (Hlen : length (take j es) = j).
  { apply length_take_le. apply lookup_lt_Some in Hj. lia. }
  rewrite <- Hsplit at 1. rewrite updateEntries_app. simpl.
  rewrite lookup_app_r by (rewrite updateEntries_length; lia).
  rewrite updateEntries_length, Hlen, Nat.sub_diag, updateEntries_cons.
  rewrite updateEntries_lookup.
  destruct (decide (key e ∈ key <$> take j es)) as [Hin|Hin].
  - rewrite decide_True; [done|].
    split; [apply same_section_entryAddress|done].
  - rewrite decide_False by (by intros [_ ?]).
    by destruct (m !! entryAddress sk e).
Qed.

(** X12. [updateEntries] keeps the entries of a section in their number
    and positions: the entry at a position keeps its key, and takes the
    value the map gives its address when it is the first entry of that key
    in the section and the map has the address; any other entry, a later
    one of the same key among them, is passed through unchanged. *)
Theorem updateEntries_overrides_first_of_key es sk (m : configMap) :
  length (Split.updateEntries es sk m).1 = length es
  ∧ ∀ j e, es !! j = Some e →
      (Split.updateEntries es sk m).1 !! j
      = Some (if decide (key e ∈ key <$> take j es) then e
              else match m !! entryAddress sk e with
                   | Some v => CfgEntry (key e) v
                   | None => e
                   end).
Proof. split; [apply updateEntries_length|apply updateEntries_at]. Qed.

(** X13. [updateEntries] takes out of the map the addresses of the
    occurrence whose entry name is the key of one of its entries, used or
    not, and leaves every other address of the map as it is. *)
Theorem updateEntries_spends_addresses es sk (m : configMap) k :
  (Split.updateEntries es sk m).2 !! k
  = if decide (same_section sk k ∧ entryKey k ∈ key <$> es) then None
    else m !! k.
Proof. apply updateEntries_lookup. Qed.

(** X14. [appendEntries] keeps the entries it is given and appends one
    entry for every address of the occurrence the map still holds, with
    the entry name as key and the value of the address; these addresses
    leave the map and no other does. With at most twelve addresses in the
    map, the slices [sort.Slice] sorts by insertion, the appended entries
    come in strictly ascending order of key. *)
Theorem appendEntries_appends_leftover rt es sk (m : configMap) :
  oracle_ok rt →
  ∃ news,
    (Split.appendEntries rt es sk m).1 = es ++ news
    ∧ news ≡ₚ entryOf <$> map_to_list (filter (fun kv => same_section sk kv.1) m)
    ∧ ((size m <= 12)%nat →
       StronglySorted (fun a b => String.ltb (key a) (key b) = true) news)
    ∧ ∀ k, (Split.appendEntries rt es sk m).2 !! k
           = if decide (same_section sk k) then None else m !! k.
Proof.
  intros Hv.
  destruct (split_appendEntries_spec rt Hv es sk m) as [Hmap (news & Hes & Hp)].
  exists news. repeat split; try done.
  intros H12.
  destruct (split_new_entries_sorted rt es sk m Hv H12) as (news' & Hes' & Hs & _).
  rewrite Hes in Hes'. apply app_inv_head in Hes'. by subst news'.
Qed.

Lemma appendEntries_appends_leftover_witness :
  let es := [CfgEntry "driver" "a"] in
  let sk := RawConfigKey "global" 0 EmptyString in
  let m : configMap :=
    {[ RawConfigKey "global" 0 "property" := "b"%string;
       RawConfigKey "global" 1 "value" := "c"%string ]} in
  ∃ news,
    (Split.appendEntries forwards es sk m).1 = es ++ news
    ∧ news ≡ₚ entryOf <$> map_to_list (filter (fun kv => same_section sk kv.1) m)
    ∧ ((size m <= 12)%nat →
       StronglySorted (fun a b => String.ltb (key a) (key b) = true) news)
    ∧ ∀ k, (Split.appendEntries forwards es sk m).2 !! k
           = if decide (same_section sk k) then None else m !! k.
Proof.
  intros es sk m. apply (appendEntries_appends_leftover forwards es sk m). exact forwards_ok.
Defined.

(** ** The merge pass and the whole function *)

Lemma mergePass_untouched r rt cfg (m : configMap) :
  oracle_ok rt →
  Z.of_nat (length cfg) < uint_modulus →
  (∀ k, is_Some (m !! k) →
        ¬ (0 <= index k < occurrence cfg (sectionName k))) →
  mergePass r rt cfg m = (cfg, m).
Proof.
  intros Hv Hlen Hout.
  assert (Hnone : ∀ j s0 k, (j, s0) ∈ occurrences_from [] cfg →
                    same_section (sectionAddress s0 j) k → m !! k = None).
  { intros j s0 k Hin [Hn Hi]. simpl in Hn, Hi.
    apply occurrences_from_bounds in Hin. rewrite occurrence_nil in Hin.
    simpl in Hin. apply eq_None_not_Some. intros Hk.
    apply (Hout k Hk). rewrite Hn, Hi. lia. }
  destruct (mergePass_inv r rt cfg m Hv Hlen) as [counts [_ Hm Ho]].
  simpl in Hm, Ho.
  unfold kept in Ho. rewrite filter_all in Ho.
  2:{ intros [j s0] Hin. simpl.
      rewrite (Hnone j s0 (sectionAddress s0 j) Hin); [done|by split]. }
  apply Forall2_merged_untouched in Ho; [|done].
  rewrite occurrences_from_snd in Ho.
  rewrite (surjective_pairing (mergePass r rt cfg m)). f_equal; [done|].
  apply map_eq. intros k. rewrite Hm.
  destruct (decide (consumed cfg m k)) as [[Hr _]|]; [|done].
  symmetry. apply eq_None_not_Some. intros Hk. by apply (Hout k Hk).
Qed.

Lemma mergePass_empty r rt cfg :
  oracle_ok rt →
  Z.of_nat (length cfg) < uint_modulus →
  mergePass r rt cfg ∅ = (cfg, ∅).
Proof.
  intros Hv Hlen. apply mergePass_untouched; [done..|].
  intros k [v Hk]. by rewrite lookup_empty in Hk.
Qed.

Lemma override_fast_path r rt cfg (d : gmap string string) :
  extractKeys r rt d = Some ∅ → override r rt cfg d = Some cfg.
Proof.
  intros Hex. destruct r; simpl in *.
  - unfold Split.qemuRawCfgOverride. by rewrite Hex.
  - unfold Inline.qemuRawCfgOverride. by rewrite Hex.
Qed.

Lemma override_output r rt cfg (d : gmap string string) (m : configMap) :
  oracle_ok rt →
  Z.of_nat (length cfg) < uint_modulus →
  extractKeys r rt d = Some m →
  override r rt cfg d
  = Some ((mergePass r rt cfg m).1 ++ appended r rt (mergePass r rt cfg m).2).
Proof.
  intros Hv Hlen Hex. destruct (decide (m = ∅)) as [->|Hne].
  - rewrite mergePass_empty by done. simpl.
    rewrite appended_empty, app_nil_r by done. by apply override_fast_path.
  - by apply override_pipeline.
Qed.

Lemma occurrence_exists seen l n j :
  occurrence seen n <= j < occurrence (seen ++ l) n →
  ∃ s, (j, s) ∈ occurrences_from seen l ∧ name s = n.
Proof.
  revert seen. induction l as [|s l IH]; intros seen Hj.
  - rewrite app_nil_r in Hj. lia.
  - simpl. destruct (decide (name s = n ∧ j = occurrence seen n)) as [[Hn ->]|Hno].
    + exists s. split; [|done]. rewrite <- Hn. by left.
    + destruct (IH (seen ++ [s])) as (s' & Hin & Hn').
      * rewrite <- app_assoc. simpl. rewrite occurrence_snoc.
        destruct (decide (name s = n)) as [Hn|Hn]; [|lia].
        assert (j ≠ occurrence seen n) by (intros ->; by apply Hno). lia.
      * exists s'. split; [by right|done].
Qed.

Lemma final_map_subset r rt cfg (m : configMap) k v :
  oracle_ok rt →
  Z.of_nat (length cfg) < uint_modulus →
  (mergePass r rt cfg m).2 !! k = Some v → m !! k = Some v.
Proof.
  intros Hv Hlen.
  destruct (mergePass_inv r rt cfg m Hv Hlen) as [counts [_ Hm _]].
  simpl in Hm. rewrite Hm. by destruct (decide (consumed cfg m k)).
Qed.

Lemma appended_elem r rt (m : configMap) sec :
  oracle_ok rt →
  sec ∈ appended r rt m →
  ∃ key, newSectionsOf r rt m !! key = Some sec.
Proof.
  intros Hv. unfold appended. rewrite list_elem_of_fmap.
  intros (key & -> & Hin). exists key.
  rewrite sort_Slice_perm in Hin by done.
  rewrite (visit_perm rt Hv _ (map_to_list _)) in Hin.
  apply list_elem_of_fmap in Hin as ([key' sec'] & -> & Hin).
  apply elem_of_map_to_list in Hin. simpl. by rewrite Hin.
Qed.

Lemma appended_section r rt (m : configMap) sec :
  oracle_ok rt →
  sec ∈ appended r rt m →
  comment sec = EmptyString ∧ entries sec ≠ []
  ∧ ∃ i, ∀ e, e ∈ entries sec
              ↔ key e ≠ EmptyString
                ∧ m !! RawConfigKey (name sec) i (key e) = Some (value e).
Proof.
  intros Hv Hin. apply (appended_elem r rt m sec Hv) in Hin as [sa Hkey].
  rewrite newSectionsOf_over, newSections_over_lookup in Hkey.
  fold (sortedKeysOf r rt m) in Hkey.
  destruct (decide (entryKey sa = EmptyString
                    ∧ filter (feeds sa) (sortedKeysOf r rt m) ≠ []))
    as [[Hke Hf]|]; [|done].
  injection Hkey as <-. simpl. split; [done|]. split.
  { intros Hnil. apply fmap_nil_inv in Hnil. done. }
  exists (index sa). intros e. rewrite list_elem_of_fmap. split.
  - intros (k & -> & Hk). apply list_elem_of_filter in Hk as [[Hne Hs] Hk].
    apply (sortedKeys_elem_of r rt m k Hv) in Hk as [v Hk].
    unfold entryAt. simpl. rewrite Hk. simpl. split; [done|].
    rewrite <- Hk. f_equal. symmetry. apply (same_section_eq sa k Hs).
  - intros [Hne Hm]. exists (RawConfigKey (sectionName sa) (index sa) (key e)).
    unfold entryAt. simpl. rewrite Hm. simpl. split; [by rewrite eta_entry|].
    apply list_elem_of_filter. split; [by split|].
    apply (sortedKeys_elem_of r rt m _ Hv). by eexists.
Qed.

Lemma merged_holds (m : configMap) j s o k v :
  merged m (j, s) o →
  m !! RawConfigKey (name s) j k = Some v →
  CfgEntry k v ∈ entries o.
Proof.
  intros (_ & _ & news & He & Hp) Hk. simpl in He, Hp. rewrite He.
  set (sk := sectionAddress s j) in *.
  destruct (decide (k ∈ key <$> entries s)) as [Hin|Hin].
  - apply list_elem_of_split_l in Hin as (l1 & l2 & Hl & Hfirst).
    apply fmap_app_inv in Hl as (pre & post' & Hl1 & Hl2 & Hes).
    symmetry in Hl2. apply fmap_cons_inv in Hl2 as (e0 & post & Hk0 & _ & ->).
    subst l1 k. apply elem_of_app. left.
    apply list_elem_of_lookup. exists (length pre).
    rewrite (updateEntries_at _ sk m (length pre) e0)
      by (rewrite Hes; apply list_lookup_middle; done).
    rewrite Hes, take_app_length. rewrite decide_False by done.
    unfold entryAddress, sk. simpl. by rewrite Hk.
  - apply elem_of_app. right. rewrite Hp. unfold leftover.
    apply list_elem_of_fmap. exists (RawConfigKey (name s) j k, v).
    split; [done|]. apply elem_of_map_to_list, map_lookup_filter_Some.
    split; [|by split].
    rewrite updateEntries_lookup, decide_False; [done|]. by intros [_ ?].
Qed.

Lemma merged_source (m : configMap) j s o e :
  merged m (j, s) o →
  e ∈ entries o →
  e ∈ entries s ∨ m !! RawConfigKey (name s) j (key e) = Some (value e).
Proof.
  intros (_ & _ & news & He & Hp) Hin. simpl in He, Hp. rewrite He in Hin.
  set (sk := sectionAddress s j) in *.
  apply elem_of_app in Hin as [Hin|Hin].
  - apply list_elem_of_lookup in Hin as [i Hi].
    assert (Hlt : (i < length (entries s))%nat).
    { rewrite <- (updateEntries_length (entries s) sk m).
      by apply lookup_lt_Some in Hi. }
    apply lookup_lt_is_Some in Hlt as [e0 He0].
    rewrite (updateEntries_at _ sk m i e0 He0) in Hi. injection Hi as <-.
    assert (Hin0 : e0 ∈ entries s) by (apply list_elem_of_lookup; by exists i).
    destruct (decide _); [by left|].
    destruct (m !! entryAddress sk e0) as [v|] eqn:Hv; [|by left].
    right. done.
  - rewrite Hp in Hin. unfold leftover in Hin.
    apply list_elem_of_fmap in Hin as ([k v] & -> & Hin).
    apply elem_of_map_to_list, map_lookup_filter_Some in Hin as [Hk Hs].
    simpl in Hs. rewrite updateEntries_lookup in Hk.
    destruct (decide _); [done|].
    right. unfold entryOf. simpl.
    rewrite <- Hk. f_equal. symmetry. apply (same_section_eq sk k Hs).
Qed.




(** X15. The merge pass, [updateSections] in one revision and the loop
    over [cfg] in the other: the output holds, in the original order, the
    occurrences the map does not delete, the i-th section of a name being
    matched with the index i-1; each keeps its name and comment and has
    its original entries, overridden in place, followed by the entries of
    the left-over addresses of the occurrence, in some order. The map that
    remains holds the addresses of the occurrences that are not in the
    list and the entry addresses of the deleted occurrences, and nothing
    else. *)
Theorem merge_pass_spec r rt cfg (m : configMap) :
  oracle_ok rt →
  Z.of_nat (length cfg) < uint_modulus →
  Forall2 (merged m) (kept m (occurrences_from [] cfg)) (mergePass r rt cfg m).1
  ∧ ∀ k, (mergePass r rt cfg m).2 !! k
         = if decide (consumed cfg m k) then None else m !! k.
Proof.
  intros Hv Hlen.
  destruct (mergePass_inv r rt cfg m Hv Hlen) as [counts [_ Hm Ho]]. done.
Qed.

Lemma merge_pass_spec_witness :
  let cfg := [CfgSection "global" "first" [CfgEntry "driver" "a"];
              CfgSection "global" "second" [CfgEntry "driver" "b"]] in
  let m : configMap :=
    {[ RawConfigKey "global" 0 EmptyString := EmptyString;
       RawConfigKey "global" 1 "driver" := "c"%string ]} in
  Forall2 (merged m) (kept m (occurrences_from [] cfg))
    (mergePass InlineRev forwards cfg m).1
  ∧ ∀ k, (mergePass InlineRev forwards cfg m).2 !! k
         = if decide (consumed cfg m k) then None else m !! k.
Proof.
  intros cfg m. apply (merge_pass_spec InlineRev forwards cfg m).
  - exact forwards_ok.
  - vm_compute. reflexivity.
Defined.

(** X16. Overrides that address no section of the list leave the list
    alone: when every address of the map names a section that is not in
    the list, or an index past its last occurrence, the merge pass returns
    the list and the map as they are, and the function returns the list
    followed by new sections. *)
Theorem unaddressed_sections_pass_through r rt cfg (d : gmap string string)
    (m : configMap) :
  oracle_ok rt →
  Z.of_nat (length cfg) < uint_modulus →
  extractKeys r rt d = Some m →
  addresses_none cfg m →
  mergePass r rt cfg m = (cfg, m)
  ∧ override r rt cfg d = Some (cfg ++ appended r rt m).
Proof.
  intros Hv Hlen Hex Hnone.
  pose proof (mergePass_untouched r rt cfg m Hv Hlen Hnone) as Hmp.
  split; [done|]. rewrite (override_output r rt cfg d m Hv Hlen Hex).
  by rewrite Hmp.
Qed.

Lemma unaddressed_sections_pass_through_witness :
  let cfg := [CfgSection "global" "first" [CfgEntry "driver" "a"]] in
  let d : gmap string string :=
    {[ "raw.qemu.config.global[1].driver"%string := "b"%string ]} in
  let m : configMap := {[ RawConfigKey "global" 1 "driver" := "b"%string ]} in
  mergePass SplitRev forwards cfg m = (cfg, m)
  ∧ override SplitRev forwards cfg d = Some (cfg ++ appended SplitRev forwards m).
Proof.
  intros cfg d m. apply (unaddressed_sections_pass_through SplitRev forwards cfg d m).
  - exact forwards_ok.
  - vm_compute. reflexivity.
  - reflexivity.
  - intros k [v Hk]. apply lookup_singleton_Some in Hk as [<- _].
    vm_compute. intros [_ H]. discriminate H.
Defined.

(** X17. No override of an entry is lost: for every address of the
    extracted map with an entry name, whatever else the dictionary holds,
    the output has a section of the name of the address with an entry of
    that entry name and the value of the address. *)
Theorem no_entry_override_is_lost r rt cfg (d : gmap string string)
    (m : configMap) out K v :
  oracle_ok rt →
  Z.of_nat (length cfg) < uint_modulus →
  extractKeys r rt d = Some m →
  override r rt cfg d = Some out →
  m !! K = Some v →
  entryKey K ≠ EmptyString →
  ∃ sec, sec ∈ out ∧ name sec = sectionName K
         ∧ CfgEntry (entryKey K) v ∈ entries sec.
Proof.
  intros Hv Hlen Hex Hout HK Hne.
  rewrite (override_output r rt cfg d m Hv Hlen Hex) in Hout.
  injection Hout as <-.
  destruct (mergePass_inv r rt cfg m Hv Hlen) as [counts [_ Hm Ho]].
  simpl in Hm, Ho. destruct K as [n j k]. simpl in *.
  destruct (decide (consumed cfg m (RawConfigKey n j k))) as [[Hr Hdel]|Hnc].
  - simpl in Hr, Hdel.
    destruct (occurrence_exists [] cfg n j) as (s & Hin & Hn).
    { by rewrite occurrence_nil. }
    assert (Hk : (j, s) ∈ kept m (occurrences_from [] cfg)).
    { apply list_elem_of_filter. split; [|done]. simpl.
      unfold sectionAddress. rewrite Hn. intros Hd. by apply Hne, Hdel. }
    apply list_elem_of_lookup in Hk as [i Hi].
    destruct (Forall2_lookup_l _ _ _ _ _ Ho Hi) as (o & Hoi & Hmo).
    exists o. split.
    { apply elem_of_app. left. apply list_elem_of_lookup. by exists i. }
    split; [destruct Hmo as [-> _]; done|].
    apply (merged_holds m j s o k v Hmo). by rewrite Hn.
  - specialize (Hm (RawConfigKey n j k)). rewrite decide_False in Hm by done.
    rewrite HK in Hm.
    destruct (appended_holds r rt _ _ v Hv Hm Hne) as (sec & Hin & Hn & _ & He).
    exists sec. split; [|done]. apply elem_of_app. by right.
Qed.

Lemma no_entry_override_is_lost_witness :
  let cfg := [CfgSection "global" "first" [CfgEntry "driver" "a"]] in
  let d : gmap string string :=
    {[ "raw.qemu.config.global.driver"%string := "b"%string ]} in
  let m : configMap := {[ RawConfigKey "global" 0 "driver" := "b"%string ]} in
  let out := [CfgSection "global" "first" [CfgEntry "driver" "b"]] in
  ∃ sec, sec ∈ out ∧ name sec = "global"%string
         ∧ CfgEntry "driver" "b" ∈ entries sec.
Proof.
  intros cfg d m out.
  apply (no_entry_override_is_lost InlineRev forwards cfg d m out
           (RawConfigKey "global" 0 "driver") "b").
  - exact forwards_ok.
  - vm_compute. reflexivity.
  - reflexivity.
  - reflexivity.
  - reflexivity.
  - discriminate.
Defined.

(** X18. The output holds nothing of its own making: every entry of
    every section of the output is an entry of a section of that name in
    the original list, or has the value the extracted map gives to an
    address made of the name of the section, some index and the key of the
    entry. *)
Theorem output_entries_have_a_source r rt cfg (d : gmap string string)
    (m : configMap) out sec e :
  oracle_ok rt →
  Z.of_nat (length cfg) < uint_modulus →
  extractKeys r rt d = Some m →
  override r rt cfg d = Some out →
  sec ∈ out → e ∈ entries sec →
  (∃ s, s ∈ cfg ∧ name s = name sec ∧ e ∈ entries s)
  ∨ (∃ i, m !! RawConfigKey (name sec) i (key e) = Some (value e)).
Proof.
  intros Hv Hlen Hex Hout Hsec He.
  rewrite (override_output r rt cfg d m Hv Hlen Hex) in Hout.
  injection Hout as <-.
  destruct (mergePass_inv r rt cfg m Hv Hlen) as [counts [_ _ Ho]].
  simpl in Ho. apply elem_of_app in Hsec as [Hsec|Hsec].
  - apply list_elem_of_lookup in Hsec as [i Hi].
    destruct (Forall2_lookup_r _ _ _ _ _ Ho Hi) as ([j s] & Hji & Hmo).
    assert (Hn : name sec = name s) by (by destruct Hmo as [? _]).
    destruct (merged_source m j s sec e Hmo He) as [Hin|Hin].
    + left. exists s. split; [|done].
      apply (occurrences_from_elem [] cfg (j, s)).
      assert (Hk : (j, s) ∈ kept m (occurrences_from [] cfg)).
      { apply list_elem_of_lookup. by exists i. }
      by apply list_elem_of_filter in Hk as [_ Hk].
    + right. exists j. by rewrite Hn.
  - destruct (appended_section r rt _ sec Hv Hsec) as (_ & _ & i & Hi).
    apply Hi in He as [_ He]. right. exists i.
    by apply (final_map_subset r rt cfg m _ _ Hv Hlen).
Qed.

Lemma output_entries_have_a_source_witness :
  let cfg := [CfgSection "global" "first" [CfgEntry "driver" "a"]] in
  let d : gmap string string :=
    {[ "raw.qemu.config.global.driver"%string := "b"%string ]} in
  let m : configMap := {[ RawConfigKey "global" 0 "driver" := "b"%string ]} in
  let sec := CfgSection "global" "first" [CfgEntry "driver" "b"] in
  let e := CfgEntry "driver" "b" in
  (∃ s, s ∈ cfg ∧ name s = name sec ∧ e ∈ entries s)
  ∨ (∃ i, m !! RawConfigKey (name sec) i (key e) = Some (value e)).
Proof.
  intros cfg d m sec e.
  apply (output_entries_have_a_source SplitRev forwards cfg d m [sec] sec e).
  - exact forwards_ok.
  - vm_compute. reflexivity.
  - reflexivity.
  - reflexivity.
  - apply list_elem_of_here.
  - apply list_elem_of_here.
Defined.

(** X19. The sections added at the end, by [appendSections] in one
    revision and by the last part of [qemuRawCfgOverride] in the other:
    the output is the result of the merge pass followed by new sections;
    each new section has an empty comment and at least one entry, and its
    entries are those of the addresses of one index of its name that the
    merge pass left in the map and that carry an entry name; every such
    address is in one of the new sections. *)
Theorem new_sections_spec r rt cfg (d : gmap string string) (m : configMap) :
  oracle_ok rt →
  Z.of_nat (length cfg) < uint_modulus →
  extractKeys r rt d = Some m →
  ∃ news,
    override r rt cfg d = Some ((mergePass r rt cfg m).1 ++ news)
    ∧ (∀ sec, sec ∈ news →
         comment sec = EmptyString ∧ entries sec ≠ []
         ∧ ∃ i, ∀ e, e ∈ entries sec
                     ↔ key e ≠ EmptyString
                       ∧ (mergePass r rt cfg m).2
                           !! RawConfigKey (name sec) i (key e) = Some (value e))
    ∧ (∀ k v, (mergePass r rt cfg m).2 !! k = Some v →
              entryKey k ≠ EmptyString →
              ∃ sec, sec ∈ news ∧ name sec = sectionName k
                     ∧ CfgEntry (entryKey k) v ∈ entries sec).
Proof.
  intros Hv Hlen Hex. exists (appended r rt (mergePass r rt cfg m).2).
  split; [by apply override_output|]. split.
  - intros sec Hsec. by apply (appended_section r rt _ sec Hv).
  - intros k v Hk Hne.
    destruct (appended_holds r rt _ _ v Hv Hk Hne) as (sec & Hin & Hn & _ & He).
    by exists sec.
Qed.

Lemma new_sections_spec_witness :
  let cfg := [CfgSection "global" "first" [CfgEntry "driver" "a"]] in
  let d : gmap string string :=
    {[ "raw.qemu.config.machine.type"%string := "q35"%string ]} in
  let m : configMap := {[ RawConfigKey "machine" 0 "type" := "q35"%string ]} in
  ∃ news,
    override InlineRev backwards cfg d
    = Some ((mergePass InlineRev backwards cfg m).1 ++ news)
    ∧ (∀ sec, sec ∈ news →
         comment sec = EmptyString ∧ entries sec ≠ []
         ∧ ∃ i, ∀ e, e ∈ entries sec
                     ↔ key e ≠ EmptyString
                       ∧ (mergePass InlineRev backwards cfg m).2
                           !! RawConfigKey (name sec) i (key e) = Some (value e))
    ∧ (∀ k v, (mergePass InlineRev backwards cfg m).2 !! k = Some v →
              entryKey k ≠ EmptyString →
              ∃ sec, sec ∈ news ∧ name sec = sectionName k
                     ∧ CfgEntry (entryKey k) v ∈ entries sec).
Proof.
  intros cfg d m. apply (new_sections_spec InlineRev backwards cfg d m).
  - exact backwards_ok.
  - vm_compute. reflexivity.
  - reflexivity.
Defined.



Lemma updateEntries_keys es sk (m : configMap) :
  key <$> (Split.updateEntries es sk m).1 = key <$> es.
Proof.
  revert m. induction es as [|e es IH]; intros m; [done|].
  rewrite updateEntries_cons. destruct (m !! _); simpl; by rewrite IH.
Qed.

(** X21. Without a deletion the merge pass keeps every section and every
    entry in place: when the map gives the empty string to no address
    without entry name, the output of the merge pass has, section for
    section, the names and comments of the list, and each section starts
    with entries of the keys of its original entries, in their order. *)
Theorem sections_survive_without_deletion r rt cfg (m : configMap) :
  oracle_ok rt →
  Z.of_nat (length cfg) < uint_modulus →
  (∀ k, entryKey k = EmptyString → m !! k ≠ Some EmptyString) →
  Forall2 (fun s o =>
             name o = name s ∧ comment o = comment s
             ∧ key <$> take (length (entries s)) (entries o) = key <$> entries s)
          cfg (mergePass r rt cfg m).1.
Proof.
  intros Hv Hlen Hnd.
  destruct (mergePass_inv r rt cfg m Hv Hlen) as [counts [_ _ Ho]].
  simpl in Ho. unfold kept in Ho. rewrite filter_all in Ho.
  2:{ intros [j s] _. simpl. by apply Hnd. }
  rewrite <- (occurrences_from_snd [] cfg) at 1.
  apply Forall2_fmap_l. eapply Forall2_impl; [exact Ho|].
  intros [j s] o (Hn & Hc & news & He & _). simpl in *.
  split; [done|]. split; [done|].
  rewrite He, <- (updateEntries_length (entries s) (sectionAddress s j) m).
  rewrite take_app_length. apply updateEntries_keys.
Qed.

Lemma sections_survive_without_deletion_witness :
  let cfg := [CfgSection "global" "first" [CfgEntry "driver" "a"];
              CfgSection "global" "second" [CfgEntry "driver" "b"]] in
  let m : configMap := {[ RawConfigKey "global" 1 "driver" := "c"%string ]} in
  Forall2 (fun s o =>
             name o = name s ∧ comment o = comment s
             ∧ key <$> take (length (entries s)) (entries o) = key <$> entries s)
          cfg (mergePass SplitRev forwards cfg m).1.
Proof.
  intros cfg m. apply (sections_survive_without_deletion SplitRev forwards cfg m).
  - exact forwards_ok.
  - vm_compute. reflexivity.
  - intros k Hk Hm. apply lookup_singleton_Some in Hm as [<- _]. discriminate Hk.
Defined.
